(** * The game state machine of [src/main.ts]

    A shallow embedding of the latest revision of [main.ts] (the one with
    score, restart and ghosts): the constants, the pipe manager
    ([animatePipes]), the ghost manager ([GhostManager]) and the reducer
    that [state$] hands to [scan].

    Numbers.  Every [number] that holds a position or a velocity is a
    rational ([Q]); every constant of the program is a dyadic rational or a
    small decimal and all arithmetic is taken exact.  The two counters
    [lives] and [score] only ever move by one and are compared with [0] and
    [1]; they are integers ([Z]).  The source computes on doubles: bird
    heights are small integers and pipe abscissae are multiples of one
    half, which doubles hold exactly, but the gap of a pipe comes from
    [Math.random] and the sum [gapY + pipeGapHeight] is rounded.
    Rounding is monotone, so a collision of the source is a collision
    here; a bird whose bottom edge is within one rounding step of the end
    of a gap may collide here and pass in the source.  A statement that
    assumes that no pipe collides therefore holds of the source as it is;
    one that assumes a collision is to be read away from that one
    rounding step.

    Effects.  The closures of [animatePipes] and [state$] share three
    mutable objects: the array [activePipes], the array [currentRun] and the
    ghosts of the [GhostManager].  They are the fields of one [World] that
    every callback takes and returns.  [Math.random] is modelled by an
    oracle: the sequence of values it will return, and the number of calls
    made so far. *)

From Stdlib Require Import ZArith QArith Lqa Lia List Bool.
From Stdlib Require Import Sorted.
Import ListNotations.

Local Open Scope Q_scope.

(** ** Constants *)

Module Viewport.
Definition CANVAS_WIDTH : Q := 600.
Definition CANVAS_HEIGHT : Q := 400.
End Viewport.

Module Birb.
Definition WIDTH : Q := 42.
Definition HEIGHT : Q := 30.
End Birb.

Module Constants.
Definition PIPE_WIDTH : Q := 50.
Definition TICK_RATE_MS : Q := 40.
End Constants.

Definition GAP_HEIGHT : Q := 100.
Definition PIPE_SPEED : Q := 5 # 2.
Definition SPAWN_THRESHOLD : Q := (7 # 10) * Viewport.CANVAS_WIDTH.

(** [a < b] and [a > b] of the source, as booleans. *)
Definition Qltb (a b : Q) : bool := negb (Qle_bool b a).
Definition Qgtb (a b : Q) : bool := Qltb b a.

(** ** State *)

Record State : Type := mkState {
  gameEnd : bool;
  birdY : Q;
  vy : Q;
  lives : Z;
  score : Z
}.

Definition initialState : State :=
  {| gameEnd := false; birdY := 200; vy := 0; lives := 3; score := 0 |}.

(** [{ ...initialState, birdY: 200, vy: 0 }] *)
Definition initialBirdState : State :=
  {| gameEnd := gameEnd initialState; birdY := 200; vy := 0;
     lives := lives initialState; score := score initialState |}.

(** ** Pipes *)

(** [passed] is an optional field; an absent one is falsy. *)
Record Pipe : Type := mkPipe {
  x : Q;
  gapY : Q;
  pipeGapHeight : Q;
  passed : bool
}.

Inductive Side : Type := top | bottom.

(** [isColliding]: [None] is the source's [null]. *)
Definition isColliding (birdY : Q) (pipe : Pipe) : option Side :=
  let birdTop := birdY in
  let birdBottom := birdY + Birb.HEIGHT in
  let birdLeft := Viewport.CANVAS_WIDTH * (3 # 10) in
  let birdRight := birdLeft + Birb.WIDTH in
  let withinPipeX :=
    if Qgtb birdRight (x pipe)
    then (if Qltb birdLeft (x pipe + Constants.PIPE_WIDTH) then true else false)
    else false in
  if negb withinPipeX then None
  else if Qltb birdTop (gapY pipe) then Some top
  else if Qgtb birdBottom (gapY pipe + pipeGapHeight pipe) then Some bottom
  else None.

(** ** Ghosts *)

(** One ghost of the [GhostManager]: the trail it was given and the cursor
    [index] of its interval callback. *)
Record Ghost : Type := mkGhost {
  runPositions : list Q;
  index : nat
}.

(** ** Events of the merged stream [movement$] *)

Inductive Event : Type :=
| Flap (vy : Q)
| Gravity (vy : Q)
| Restart.

(** ** The shared world *)

Record World : Type := mkWorld {
  state : State;              (* accumulator of [scan] *)
  activePipes : list Pipe;    (* [activePipes], in spawn order *)
  currentRun : list Q;        (* [currentRun] of [state$] *)
  ghosts : list Ghost;        (* live ghosts, in spawn order *)
  livesText : Z;              (* the number shown by [#livesText] *)
  random : nat -> Q;          (* values of [Math.random], in call order *)
  draws : nat                 (* calls of [Math.random] so far *)
}.

Definition set_state (s : State) (w : World) : World :=
  mkWorld s (activePipes w) (currentRun w) (ghosts w) (livesText w)
          (random w) (draws w).

Definition set_activePipes (ps : list Pipe) (w : World) : World :=
  mkWorld (state w) ps (currentRun w) (ghosts w) (livesText w)
          (random w) (draws w).

Definition set_currentRun (r : list Q) (w : World) : World :=
  mkWorld (state w) (activePipes w) r (ghosts w) (livesText w)
          (random w) (draws w).

Definition set_ghosts (gs : list Ghost) (w : World) : World :=
  mkWorld (state w) (activePipes w) (currentRun w) gs (livesText w)
          (random w) (draws w).

Definition set_livesText (l : Z) (w : World) : World :=
  mkWorld (state w) (activePipes w) (currentRun w) (ghosts w) l
          (random w) (draws w).

Definition set_draws (n : nat) (w : World) : World :=
  mkWorld (state w) (activePipes w) (currentRun w) (ghosts w) (livesText w)
          (random w) n.

(** ** The pipe manager *)

(** The pipe [createPipe] builds when [Math.random] returns [r]. *)
Definition newPipe (r : Q) : Pipe :=
  let minGapY := 20 in
  let maxGapY := Viewport.CANVAS_HEIGHT - GAP_HEIGHT - 20 in
  {| x := Viewport.CANVAS_WIDTH;
     gapY := minGapY + r * (maxGapY - minGapY);
     pipeGapHeight := GAP_HEIGHT;
     passed := false |}.

Definition createPipe (w : World) : World :=
  set_draws (S (draws w))
    (set_activePipes (activePipes w ++ [newPipe (random w (draws w))]) w).

(** [resetPipes]: both arms of the conditional end in [createPipe]. *)
Definition resetPipes (w : World) : World :=
  if (0 <? length (activePipes w))%nat
  then createPipe (set_activePipes [] w)
  else createPipe w.

Definition moveLeft (p : Pipe) : Pipe :=
  mkPipe (x p - PIPE_SPEED) (gapY p) (pipeGapHeight p) (passed p).

Definition onScreen (p : Pipe) : bool :=
  Qgtb (x p + Constants.PIPE_WIDTH) 0.

(** The callback of [interval(TICK_RATE_MS / 2)].  It reads the lives back
    from the text of [#livesText] and does nothing when they are used up.
    The loop runs from the last index down and splices at the current
    index, so every pipe is moved once and then kept or dropped. *)
Definition advancePipes (w : World) : World :=
  if (livesText w <=? 0)%Z then w
  else
    let kept := filter onScreen (map moveLeft (activePipes w)) in
    let w1 := set_activePipes kept w in
    match rev kept with
    | [] => createPipe w1
    | lastPipe :: _ =>
        if Qltb (x lastPipe) SPAWN_THRESHOLD then createPipe w1 else w1
    end.

(** ** The ghost manager *)

(** [spawnGhost(runPositions)]: a new ghost at cursor 0. *)
Definition spawnGhost (runPositions : list Q) (w : World) : World :=
  set_ghosts (ghosts w ++ [mkGhost runPositions 0]) w.

(** One firing of a ghost's interval: [None] when the trail is exhausted
    and the ghost removes itself. *)
Definition tickGhost (g : Ghost) : option Ghost :=
  if (length (runPositions g) <=? index g)%nat then None
  else Some (mkGhost (runPositions g) (S (index g))).

Fixpoint tickNth (i : nat) (gs : list Ghost) : list Ghost :=
  match gs with
  | [] => []
  | g :: rest =>
      match i with
      | O => match tickGhost g with
             | Some g' => g' :: rest
             | None => rest
             end
      | S j => g :: tickNth j rest
      end
  end.

Definition ghostTick (i : nat) (w : World) : World :=
  set_ghosts (tickNth i (ghosts w)) w.

(** ** The reducer of [scan] *)

(** The test of line 826: an obstacle not yet passed whose right edge is
    left of the bird's fixed horizontal position. *)
Definition scores (p : Pipe) : bool :=
  negb (passed p)
  && Qgtb (Viewport.CANVAS_WIDTH * (3 # 10)) (x p + Constants.PIPE_WIDTH).

Definition markPassed (p : Pipe) : Pipe :=
  if scores p then mkPipe (x p) (gapY p) (pipeGapHeight p) true else p.

(** Result of the [for ... of activePipes] loop: it either returns from the
    reducer at the first colliding pipe, with the score counted so far, or
    runs to the end. *)
Inductive Scan : Type :=
| Hit (score : Z)
| Clear (score : Z) (pipes : list Pipe).

Fixpoint scanPipes (newBirdY : Q) (pipes : list Pipe) (score : Z) : Scan :=
  match pipes with
  | [] => Clear score []
  | pipe :: rest =>
      match isColliding newBirdY pipe with
      | Some _ => Hit score
      | None =>
          let score' := if scores pipe then (score + 1)%Z else score in
          match scanPipes newBirdY rest score' with
          | Hit s => Hit s
          | Clear s rest' => Clear s (markPassed pipe :: rest')
          end
      end
  end.

(** The block that both collision branches start with (lines 797-800 and
    815-818): hand a copy of the trail to a ghost and start a new trail. *)
Definition ghostOnLoss (lives : Z) (w : World) : World :=
  if (0 <? length (currentRun w))%nat && (1 <? lives)%Z
  then set_currentRun [] (spawnGhost (currentRun w) w)
  else w.

(** Velocity chosen by the event (lines 783-785). *)
Definition nextVy (s : State) (event : Event) : Q :=
  match event with
  | Flap v => v
  | Gravity v => vy s + v
  | Restart => vy s
  end.

(** The test of line 796 on the tentative position. *)
Definition outOfBounds (birdY : Q) : bool :=
  Qltb birdY 0 || Qgtb (birdY + Birb.HEIGHT) Viewport.CANVAS_HEIGHT.

Definition hitBounds (w : World) (event : Event) : bool :=
  outOfBounds (birdY (state w) + nextVy (state w) event).

Definition reducer (w : World) (event : Event) : World :=
  match event with
  | Restart =>
      set_state initialBirdState (resetPipes (set_currentRun [] w))
  | _ =>
      let st := state w in
      if gameEnd st then w
      else
        let vy := nextVy st event in
        let birdY := birdY st + vy in
        let hit := outOfBounds birdY in
        let w1 := if hit then resetPipes (ghostOnLoss (lives st) w) else w in
        let lives1 := if hit then (lives st - 1)%Z else lives st in
        let newBirdY := if hit then 200 else birdY in
        let gameEnd1 :=
          if hit then (if (lives1 <=? 0)%Z then true else false)
          else (lives st <=? 0)%Z in
        match scanPipes newBirdY (activePipes w1) (score st) with
        | Hit score =>
            let w2 := ghostOnLoss lives1 w1 in
            let lives2 := (lives1 - 1)%Z in
            let gameEnd2 := if (lives2 <=? 0)%Z then true else gameEnd1 in
            set_state
              {| gameEnd := gameEnd2; birdY := 200; vy := 0;
                 lives := lives2; score := score |}
              (resetPipes w2)
        | Clear score pipes' =>
            set_state
              {| gameEnd := gameEnd1; birdY := newBirdY; vy := vy;
                 lives := lives1; score := score |}
              (set_currentRun (currentRun w1 ++ [newBirdY])
                 (set_activePipes pipes' w1))
        end
  end.

(** The subscriber [render] writes the emitted lives into [#livesText]. *)
Definition render (w : World) : World :=
  set_livesText (lives (state w)) w.

(** ** The event loop *)

Inductive Action : Type :=
| Ev (event : Event)     (* an event of [movement$]: reducer, then render *)
| Frame                  (* the pipe interval fires *)
| GhostTick (i : nat).   (* the interval of the [i]-th live ghost fires *)

Definition step (w : World) (a : Action) : World :=
  match a with
  | Ev event => render (reducer w event)
  | Frame => advancePipes w
  | GhostTick i => ghostTick i w
  end.

Definition run (w : World) (acts : list Action) : World :=
  fold_left step acts w.

(** The world when [state$] subscribes: [animatePipes] has spawned the
    first pipe; the page shows three lives. *)
Definition initialWorld (rnd : nat -> Q) : World :=
  createPipe
    {| state := initialBirdState; activePipes := []; currentRun := [];
       ghosts := []; livesText := 3; random := rnd; draws := 0 |}.

Inductive reachable : World -> Prop :=
| reachable_init : forall rnd, reachable (initialWorld rnd)
| reachable_step : forall w a, reachable w -> reachable (step w a).

(** ** Vocabulary of the statements *)

(** Some pipe of [pipes] collides with a bird at height [y]. *)
Definition anyCollision (y : Q) (pipes : list Pipe) : bool :=
  existsb (fun p => match isColliding y p with
                    | Some _ => true
                    | None => false
                    end) pipes.

(** The position the reducer tries first: [state.birdY + vy]. *)
Definition tentativeY (w : World) (event : Event) : Q :=
  birdY (state w) + nextVy (state w) event.

(** The guard of the life-loss block: a trail to hand over and more than
    one life in hand. *)
Definition spawns (l : Z) (w : World) : bool :=
  (0 <? length (currentRun w))%nat && (1 <? l)%Z.

(** The snapshot never leaves the viewport. *)
Definition inViewport (s : State) : Prop :=
  0 <= birdY s /\ birdY s + Birb.HEIGHT <= Viewport.CANVAS_HEIGHT.

(** The life counter and the end flag agree and nothing is negative. *)
Definition consistent (s : State) : Prop :=
  (gameEnd s = true <-> (lives s <= 0)%Z) /\ (0 <= lives s)%Z
  /\ (0 <= score s)%Z.

(** Obstacles whose [passed] flag is still unset. *)
Definition unpassed (pipes : list Pipe) : nat :=
  length (filter (fun p => negb (passed p)) pipes).

Definition scanScore (r : Scan) : Z :=
  match r with
  | Hit s => s
  | Clear s _ => s
  end.

(** ** Concrete runs *)

(** An oracle that always answers one half: every gap starts at 150. *)
Definition half : nat -> Q := fun _ => 1 # 2.

(** One gravity tick of the real stream, with the two pipe frames that fire
    in the same 40 ms. *)
Definition tickActs : list Action := [Frame; Frame; Ev (Gravity 2)].

Fixpoint ticks (n : nat) : list Action :=
  match n with
  | O => []
  | S k => tickActs ++ ticks k
  end.

(** The world at the first gravity event of a run, and the world one pipe
    frame after that event. *)
Definition startWorld : World := run (initialWorld half) [Frame; Frame].
Definition tickedWorld : World :=
  run (initialWorld half) (tickActs ++ [Frame]).

(** Twelve ticks of free fall from the start: the bird is at 356 and falls
    at 24 per tick; the next tick takes it through the floor. *)
Definition fallingWorld : World := run (initialWorld half) (ticks 12).

(** Free fall until the third life is gone. *)
Definition endedWorld : World := run (initialWorld half) (ticks 23).

(** [n] gravity ticks and then a flap, for each [n] of [gaps]; then
    [rest] more ticks. *)
Definition flapRun (gaps : list nat) (rest : nat) : list Action :=
  flat_map (fun n => ticks n ++ [Ev (Flap (-12))]) gaps ++ ticks rest.

(** Ninety-four ticks of play, with gaps at 180, that end with the bird
    at rest at 200, and the two pipe frames of the ninety-fifth tick: the
    first obstacle is at 125, just behind the bird. *)
Definition lateStartWorld : World :=
  run (initialWorld (fun _ => 8 # 13))
      (flapRun [12; 13; 12; 12; 12; 8; 4; 2; 1; 12]%nat 6 ++ [Frame; Frame]).

(** Ninety-four ticks of play, with gaps at 270, that end with the bird
    low and falling. *)
Definition lowWorld : World :=
  run (initialWorld (fun _ => 25 # 26))
      (flapRun [12; 13; 12; 12; 11; 5; 1; 14]%nat 14).

(** The two pipe frames of the ninety-fifth tick. *)
Definition lateFloorWorld : World := run lowWorld [Frame; Frame].

(** Two pipes that differ at most in how their coordinates are written as
    fractions. *)
Definition samePipe (p q : Pipe) : Prop :=
  x p == x q /\ gapY p == gapY q /\ pipeGapHeight p == pipeGapHeight q
  /\ passed p = passed q.

(** ** Vocabulary of the further properties *)

(** [isColliding] as a truth value, the way the reducer's [if] reads it. *)
Definition hits (y : Q) (p : Pipe) : bool :=
  match isColliding y p with
  | Some _ => true
  | None => false
  end.

(** The bird's fixed horizontal span. *)
Definition birdLeft : Q := Viewport.CANVAS_WIDTH * (3 # 10).
Definition birdRight : Q := birdLeft + Birb.WIDTH.

(** The bird's span and the pipe's span overlap. *)
Definition overlapsX (p : Pipe) : Prop :=
  x p < birdRight /\ birdLeft < x p + Constants.PIPE_WIDTH.

(** The distance a pipe has travelled when its successor is spawned. *)
Definition SPAWN_DISTANCE : Q := Viewport.CANVAS_WIDTH - SPAWN_THRESHOLD.

(** [q] was spawned after [p] had travelled the spawn distance. *)
Definition apart (p q : Pipe) : Prop := x p + SPAWN_DISTANCE < x q.

(** The pipe spawned last has not crossed the spawn threshold. *)
Definition newestAhead (pipes : list Pipe) : Prop :=
  exists older p, pipes = older ++ [p]
                  /\ SPAWN_THRESHOLD <= x p /\ x p <= Viewport.CANVAS_WIDTH.

Definition pipesOK (pipes : list Pipe) : Prop :=
  Forall (fun p => onScreen p = true) pipes
  /\ StronglySorted apart pipes
  /\ newestAhead pipes.

(** A height at which the bird is inside the viewport. *)
Definition inRange (y : Q) : Prop :=
  0 <= y /\ y + Birb.HEIGHT <= Viewport.CANVAS_HEIGHT.

(** A ghost that [spawnGhost] and its interval can handle: a first sample
    to start at, a cursor inside the trail, samples inside the viewport. *)
Definition ghostOK (g : Ghost) : Prop :=
  runPositions g <> []
  /\ (index g <= length (runPositions g))%nat
  /\ Forall inRange (runPositions g).

(** Every live ghost and the trail being recorded are in order. *)
Definition trailsOK (w : World) : Prop :=
  Forall ghostOK (ghosts w) /\ Forall inRange (currentRun w).

Definition isGhostTick (a : Action) : bool :=
  match a with
  | GhostTick _ => true
  | _ => false
  end.

Definition isFrame (a : Action) : bool :=
  match a with
  | Frame => true
  | _ => false
  end.

(** The same actions without the firings of the ghosts' intervals. *)
Definition dropGhostTicks (acts : list Action) : list Action :=
  filter (fun a => negb (isGhostTick a)) acts.

(** Number of pipe frames among the actions. *)
Definition frameCount (acts : list Action) : nat :=
  length (filter isFrame acts).

(** Play without input: gravity events of non-negative delta, pipe frames
    and ghost ticks. *)
Definition fallOnly (a : Action) : Prop :=
  match a with
  | Ev (Gravity d) => 0 <= d
  | Ev _ => False
  | _ => True
  end.

(** The part of [render] that owns the GAME OVER text: whether the
    variable [gameOver] holds an element, and how many GAME OVER texts are
    among the children of the canvas. *)
Record Banner : Type := mkBanner {
  gameOver : bool;
  shown : nat
}.

Definition renderBanner (b : Banner) (s : State) : Banner :=
  if gameEnd s
  then (if gameOver b then b else mkBanner true (S (shown b)))
  else (if gameOver b then mkBanner false (pred (shown b)) else b).

(** Seventy-six ticks of hovering between 200 and 242 with gaps at 150,
    and the two pipe frames of the next tick: the first pipe has reached
    the bird, whose next position is too low for the gap. *)
Definition pipeHitWorld : World :=
  run (initialWorld half)
      (flapRun [6; 12; 12; 12; 12; 12]%nat 10 ++ [Frame; Frame]).

(** ** Following one obstacle through a run

    A pipe is an object of the array [activePipes]; what identifies it
    from one callback to the next is its place in the array.  The
    reducer keeps the places unless it resets the pipes; a live pipe
    frame splices out the pipes that left the canvas, which shifts the
    places behind them.  [None]: the obstacle is no longer in the
    array. *)

Definition trackEvent (w : World) (event : Event) (i : nat) : option nat :=
  match event with
  | Restart => None
  | _ =>
      if gameEnd (state w) then Some i
      else if hitBounds w event then None
      else if anyCollision (tentativeY w event) (activePipes w) then None
      else Some i
  end.

Definition trackFrame (w : World) (i : nat) : option nat :=
  if (livesText w <=? 0)%Z then Some i
  else
    match nth_error (activePipes w) i with
    | Some p =>
        if onScreen (moveLeft p)
        then Some (length (filter onScreen
                             (map moveLeft (firstn i (activePipes w)))))
        else None
    | None => None
    end.

Definition trackStep (w : World) (a : Action) (i : nat) : option nat :=
  match a with
  | Ev event => trackEvent w event i
  | Frame => trackFrame w i
  | GhostTick _ => Some i
  end.

Fixpoint track (w : World) (acts : list Action) (i : nat) : option nat :=
  match acts with
  | [] => Some i
  | a :: rest =>
      match trackStep w a i with
      | Some j => track (step w a) rest j
      | None => None
      end
  end.

(** The array without the element at place [j]. *)
Definition removeAt {A : Type} (j : nat) (l : list A) : list A :=
  firstn j l ++ skipn (S j) l.

(** ** The first revision of the reducer

    [main.ts] also holds the revision of [state$] from before score,
    restart and ghosts were added (lines 287-358).  Its state has no
    [score], its pipes no [passed] flag, and its stream no restart event:
    an event that is neither a flap nor a gravity tick keeps the velocity
    and is processed like a tick. *)

Module Rev1.

Record State : Type := mkState {
  gameEnd : bool;
  birdY : Q;
  vy : Q;
  lives : Z
}.

Definition initialState : State :=
  {| gameEnd := false; birdY := 200; vy := 0; lives := 3 |}.

Record Pipe : Type := mkPipe {
  x : Q;
  gapY : Q;
  pipeGapHeight : Q
}.

Definition isColliding (birdY : Q) (pipe : Pipe) : option Side :=
  let birdTop := birdY in
  let birdBottom := birdY + Birb.HEIGHT in
  let birdLeft := Viewport.CANVAS_WIDTH * (3 # 10) in
  let birdRight := birdLeft + Birb.WIDTH in
  let withinPipeX :=
    if Qgtb birdRight (x pipe)
    then (if Qltb birdLeft (x pipe + Constants.PIPE_WIDTH) then true else false)
    else false in
  if negb withinPipeX then None
  else if Qltb birdTop (gapY pipe) then Some top
  else if Qgtb birdBottom (gapY pipe + pipeGapHeight pipe) then Some bottom
  else None.

Record World : Type := mkWorld {
  state : State;
  activePipes : list Pipe;
  random : nat -> Q;
  draws : nat
}.

Definition newPipe (r : Q) : Pipe :=
  let minGapY := 20 in
  let maxGapY := Viewport.CANVAS_HEIGHT - GAP_HEIGHT - 20 in
  {| x := Viewport.CANVAS_WIDTH;
     gapY := minGapY + r * (maxGapY - minGapY);
     pipeGapHeight := GAP_HEIGHT |}.

Definition createPipe (w : World) : World :=
  mkWorld (state w) (activePipes w ++ [newPipe (random w (draws w))])
          (random w) (S (draws w)).

Definition resetPipes (w : World) : World :=
  if (0 <? length (activePipes w))%nat
  then createPipe (mkWorld (state w) [] (random w) (draws w))
  else createPipe w.

(** The loop over [activePipes]: [true] when it returns at a colliding
    pipe. *)
Fixpoint scanPipes (newBirdY : Q) (pipes : list Pipe) : bool :=
  match pipes with
  | [] => false
  | pipe :: rest =>
      match isColliding newBirdY pipe with
      | Some _ => true
      | None => scanPipes newBirdY rest
      end
  end.

Definition reducer (w : World) (event : Event) : World :=
  let st := state w in
  if gameEnd st then w
  else
    let vy := match event with
              | Flap v => v
              | Gravity v => vy st + v
              | Restart => vy st
              end in
    let birdY := birdY st + vy in
    let hit := outOfBounds birdY in
    let w1 := if hit then resetPipes w else w in
    let lives1 := if hit then (lives st - 1)%Z else lives st in
    let newBirdY := if hit then 200 else birdY in
    let gameEnd1 :=
      if hit then (if (lives1 <=? 0)%Z then true else false)
      else (lives st <=? 0)%Z in
    if scanPipes newBirdY (activePipes w1)
    then
      let lives2 := (lives1 - 1)%Z in
      let gameEnd2 := if (lives2 <=? 0)%Z then true else gameEnd1 in
      let w2 := resetPipes w1 in
      mkWorld {| gameEnd := gameEnd2; birdY := 200; vy := 0;
                 lives := lives2 |}
              (activePipes w2) (random w2) (draws w2)
    else
      mkWorld {| gameEnd := gameEnd1; birdY := newBirdY; vy := vy;
                 lives := lives1 |}
              (activePipes w1) (random w1) (draws w1).

End Rev1.

(** What the first revision can see of a world of the last one. *)
Definition erasePipe (p : Pipe) : Rev1.Pipe :=
  Rev1.mkPipe (x p) (gapY p) (pipeGapHeight p).

Definition eraseState (s : State) : Rev1.State :=
  Rev1.mkState (gameEnd s) (birdY s) (vy s) (lives s).

Definition erase (w : World) : Rev1.World :=
  Rev1.mkWorld (eraseState (state w)) (map erasePipe (activePipes w))
               (random w) (draws w).

(** ** Comparisons *)

Lemma Qltb_true_iff (a b : Q) : Qltb a b = true <-> a < b.
Proof.
  unfold Qltb. rewrite negb_true_iff. split.
  - intro H. apply Qnot_le_lt. intro Hle.
    apply Qle_bool_iff in Hle. congruence.
  - intro H. destruct (Qle_bool b a) eqn:E; [|reflexivity].
    apply Qle_bool_iff in E. exfalso. apply (Qlt_not_le _ _ H E).
Qed.

Lemma Qltb_false_iff (a b : Q) : Qltb a b = false <-> b <= a.
Proof.
  unfold Qltb. rewrite negb_false_iff. apply Qle_bool_iff.
Qed.

Lemma outOfBounds_false (y : Q) :
  outOfBounds y = false ->
  0 <= y /\ y + Birb.HEIGHT <= Viewport.CANVAS_HEIGHT.
Proof.
  unfold outOfBounds, Qgtb. intro H.
  apply orb_false_iff in H. destruct H as [H1 H2].
  apply Qltb_false_iff in H1. apply Qltb_false_iff in H2. split; assumption.
Qed.

(** ** A fresh pipe is out of the bird's reach *)

Lemma newPipe_no_collision (y r : Q) : isColliding y (newPipe r) = None.
Proof. reflexivity. Qed.

Lemma newPipe_not_scored (r : Q) : scores (newPipe r) = false.
Proof. reflexivity. Qed.

Lemma scan_newPipe (y r : Q) (s : Z) :
  scanPipes y [newPipe r] s = Clear s [newPipe r].
Proof. reflexivity. Qed.

Lemma resetPipes_spec (w : World) :
  resetPipes w =
  mkWorld (state w) [newPipe (random w (draws w))] (currentRun w)
          (ghosts w) (livesText w) (random w) (S (draws w)).
Proof.
  unfold resetPipes. destruct (activePipes w) as [|p ps] eqn:E.
  - simpl. unfold createPipe. simpl. rewrite E. reflexivity.
  - reflexivity.
Qed.

(** ** The life-loss block *)

Lemma ghostOnLoss_frame (l : Z) (w : World) :
  state (ghostOnLoss l w) = state w /\
  activePipes (ghostOnLoss l w) = activePipes w /\
  livesText (ghostOnLoss l w) = livesText w /\
  random (ghostOnLoss l w) = random w /\
  draws (ghostOnLoss l w) = draws w.
Proof.
  unfold ghostOnLoss.
  destruct ((0 <? length (currentRun w))%nat && (1 <? l)%Z);
    repeat split; reflexivity.
Qed.

Lemma ghostOnLoss_spawn (l : Z) (w : World) :
  spawns l w = true ->
  ghosts (ghostOnLoss l w) = ghosts w ++ [mkGhost (currentRun w) 0] /\
  currentRun (ghostOnLoss l w) = [].
Proof.
  unfold spawns, ghostOnLoss. intros ->. split; reflexivity.
Qed.

Lemma ghostOnLoss_skip (l : Z) (w : World) :
  spawns l w = false -> ghostOnLoss l w = w.
Proof.
  unfold spawns, ghostOnLoss. intros ->. reflexivity.
Qed.

Lemma spawns_iff (l : Z) (w : World) :
  spawns l w = true <-> currentRun w <> [] /\ (1 < l)%Z.
Proof.
  unfold spawns. rewrite andb_true_iff, Z.ltb_lt, Nat.ltb_lt.
  destruct (currentRun w); simpl; split; intros [H1 H2]; split;
    try lia; try congruence; try discriminate.
Qed.

(** ** The obstacle loop *)

Lemma scan_monotone (y : Q) (pipes : list Pipe) :
  forall s, (s <= scanScore (scanPipes y pipes s))%Z.
Proof.
  induction pipes as [|p ps IH]; intro s; simpl; [lia|].
  destruct (isColliding y p); simpl; [lia|].
  specialize (IH (if scores p then (s + 1)%Z else s)).
  destruct (scanPipes y ps _); simpl in *; destruct (scores p); lia.
Qed.

Lemma scan_upper (y : Q) (pipes : list Pipe) :
  forall s,
    (scanScore (scanPipes y pipes s)
     <= s + Z.of_nat (length (filter scores pipes)))%Z.
Proof.
  induction pipes as [|p ps IH]; intro s; simpl; [lia|].
  destruct (isColliding y p); simpl.
  - destruct (scores p); simpl; lia.
  - specialize (IH (if scores p then (s + 1)%Z else s)).
    destruct (scanPipes y ps _); simpl in *; destruct (scores p);
      simpl in *; lia.
Qed.

Lemma scan_hit (y : Q) (pipes : list Pipe) :
  anyCollision y pipes = true ->
  forall s, exists s', scanPipes y pipes s = Hit s'.
Proof.
  induction pipes as [|p ps IH]; simpl; [discriminate|].
  intros H s. destruct (isColliding y p); [eexists; reflexivity|].
  simpl in H. destruct (IH H (if scores p then (s + 1)%Z else s)) as [s' ->].
  eexists; reflexivity.
Qed.

Lemma scan_clear (y : Q) (pipes : list Pipe) :
  anyCollision y pipes = false ->
  forall s,
    scanPipes y pipes s =
    Clear (s + Z.of_nat (length (filter scores pipes))) (map markPassed pipes).
Proof.
  induction pipes as [|p ps IH]; simpl; intros H s.
  - f_equal. lia.
  - destruct (isColliding y p); [discriminate|]. simpl in H.
    rewrite (IH H). destruct (scores p); simpl; f_equal; lia.
Qed.

(** ** The three ways through the reducer *)

(** The step went through the floor or the ceiling. *)
Lemma reducer_bounds (w : World) (ev : Event) :
  gameEnd (state w) = false -> ev <> Restart -> hitBounds w ev = true ->
  let l := lives (state w) in
  let wg := ghostOnLoss l w in
  reducer w ev =
  mkWorld {| gameEnd := (l - 1 <=? 0)%Z; birdY := 200;
             vy := nextVy (state w) ev; lives := (l - 1)%Z;
             score := score (state w) |}
          [newPipe (random w (draws w))] (currentRun wg ++ [200])
          (ghosts wg) (livesText w) (random w) (S (draws w)).
Proof.
  intros Hend Hev Hb l wg.
  destruct (ghostOnLoss_frame l w) as (_ & _ & Ht & Hr & Hd).
  fold wg in Ht, Hr, Hd.
  destruct ev as [v|v|]; try congruence;
    unfold reducer; rewrite Hend; unfold hitBounds in Hb; rewrite Hb;
    rewrite resetPipes_spec; fold l; fold wg; cbn [activePipes];
    rewrite scan_newPipe; unfold set_state, set_currentRun, set_activePipes;
    cbn [state activePipes currentRun ghosts livesText random draws];
    rewrite Ht, Hr, Hd; destruct (l - 1 <=? 0)%Z; reflexivity.
Qed.

(** The step stayed inside and ran into a pipe. *)
Lemma reducer_hit (w : World) (ev : Event) :
  gameEnd (state w) = false -> ev <> Restart -> hitBounds w ev = false ->
  anyCollision (tentativeY w ev) (activePipes w) = true ->
  let l := lives (state w) in
  let wg := ghostOnLoss l w in
  reducer w ev =
  mkWorld {| gameEnd := if (l - 1 <=? 0)%Z then true else (l <=? 0)%Z;
             birdY := 200; vy := 0; lives := (l - 1)%Z;
             score := scanScore (scanPipes (tentativeY w ev) (activePipes w)
                                           (score (state w))) |}
          [newPipe (random w (draws w))] (currentRun wg)
          (ghosts wg) (livesText w) (random w) (S (draws w)).
Proof.
  intros Hend Hev Hb Hc l wg.
  destruct (ghostOnLoss_frame l w) as (_ & _ & Ht & Hr & Hd).
  fold wg in Ht, Hr, Hd.
  destruct (scan_hit _ _ Hc (score (state w))) as [s' Hs].
  unfold tentativeY in *.
  destruct ev as [v|v|]; try congruence;
    unfold reducer; rewrite Hend; unfold hitBounds in Hb; rewrite Hb;
    rewrite Hs; rewrite resetPipes_spec; fold l; fold wg;
    unfold set_state; cbn [state activePipes currentRun ghosts livesText
                           random draws scanScore];
    rewrite Ht, Hr, Hd; reflexivity.
Qed.

(** The step stayed inside and met no pipe. *)
Lemma reducer_clear (w : World) (ev : Event) :
  gameEnd (state w) = false -> ev <> Restart -> hitBounds w ev = false ->
  anyCollision (tentativeY w ev) (activePipes w) = false ->
  reducer w ev =
  mkWorld {| gameEnd := (lives (state w) <=? 0)%Z;
             birdY := tentativeY w ev; vy := nextVy (state w) ev;
             lives := lives (state w);
             score := (score (state w)
                       + Z.of_nat (length (filter scores (activePipes w))))%Z |}
          (map markPassed (activePipes w))
          (currentRun w ++ [tentativeY w ev])
          (ghosts w) (livesText w) (random w) (draws w).
Proof.
  intros Hend Hev Hb Hc.
  pose proof (scan_clear _ _ Hc (score (state w))) as Hs.
  unfold tentativeY in *.
  destruct ev as [v|v|]; try congruence;
    unfold reducer; rewrite Hend; unfold hitBounds in Hb; rewrite Hb;
    rewrite Hs; reflexivity.
Qed.

(** Every step of a live game takes one of the three ways. *)
Lemma reducer_cases (w : World) (ev : Event) :
  hitBounds w ev = true \/
  (hitBounds w ev = false /\
   anyCollision (tentativeY w ev) (activePipes w) = true) \/
  (hitBounds w ev = false /\
   anyCollision (tentativeY w ev) (activePipes w) = false).
Proof.
  destruct (hitBounds w ev); [left; reflexivity|right].
  destruct (anyCollision _ _); [left|right]; split; reflexivity.
Qed.

(** ** Callbacks that leave the accumulator alone *)

Lemma state_createPipe (w : World) : state (createPipe w) = state w.
Proof. reflexivity. Qed.

Lemma state_advancePipes (w : World) : state (advancePipes w) = state w.
Proof.
  unfold advancePipes. destruct (livesText w <=? 0)%Z; [reflexivity|].
  destruct (rev _) as [|p ps]; [reflexivity|].
  destruct (Qltb _ _); reflexivity.
Qed.

Lemma state_step_other (w : World) (a : Action) :
  (forall ev, a <> Ev ev) -> state (step w a) = state w.
Proof.
  destruct a as [ev| |i]; intro H.
  - exfalso. apply (H ev). reflexivity.
  - apply state_advancePipes.
  - reflexivity.
Qed.

Lemma state_step_ev (w : World) (ev : Event) :
  state (step w (Ev ev)) = state (reducer w ev).
Proof. reflexivity. Qed.

Lemma reachable_run (w : World) (acts : list Action) :
  reachable w -> reachable (run w acts).
Proof.
  revert w. induction acts as [|a acts IH]; intros w H; simpl; [assumption|].
  apply IH. apply reachable_step. assumption.
Qed.

(** An invariant of the accumulator that the start state has and the
    reducer keeps holds in every reachable world. *)
Lemma reachable_ind_state (P : State -> Prop) :
  P initialBirdState ->
  (forall w ev, P (state w) -> P (state (reducer w ev))) ->
  forall w, reachable w -> P (state w).
Proof.
  intros Hinit Hred w H. induction H as [rnd|w a H IH].
  - exact Hinit.
  - destruct a as [ev| |i].
    + rewrite state_step_ev. apply Hred. exact IH.
    + rewrite state_step_other by discriminate. exact IH.
    + rewrite state_step_other by discriminate. exact IH.
Qed.

Lemma consistent_reducer (w : World) (ev : Event) :
  consistent (state w) -> consistent (state (reducer w ev)).
Proof.
  intros (Hiff & Hl & Hs).
  destruct ev as [v|v|].
  3: { unfold reducer, consistent. rewrite resetPipes_spec. simpl.
       repeat split; try lia; try discriminate. }
  all: destruct (gameEnd (state w)) eqn:Hend;
    [ unfold reducer; rewrite Hend; repeat split; tauto || lia | ].
  all: assert (Hpos : (1 <= lives (state w))%Z)
    by (destruct (Z_le_gt_dec (lives (state w)) 0) as [Hle|Hgt];
        [apply Hiff in Hle; discriminate | lia]).
  all: match goal with |- consistent (state (reducer ?w0 ?e)) =>
         destruct (reducer_cases w0 e) as [Hb|[[Hb Hc]|[Hb Hc]]] end.
  all: try (rewrite reducer_bounds by (assumption || discriminate);
            unfold consistent; cbn [state gameEnd lives score];
            rewrite Z.leb_le; repeat split; intros; lia).
  all: try (rewrite reducer_hit by (assumption || discriminate);
            unfold consistent; cbn [state gameEnd lives score];
            match goal with |- context [scanScore (scanPipes ?y ?ps ?s)] =>
              pose proof (scan_monotone y ps s) end;
            destruct (Z.leb_spec (lives (state w) - 1) 0);
            destruct (Z.leb_spec (lives (state w)) 0);
            repeat split; intros; try lia; try reflexivity;
            try discriminate).
  all: rewrite reducer_clear by (assumption || discriminate);
       unfold consistent; cbn [state gameEnd lives score];
       rewrite Z.leb_le; repeat split; intros; lia.
Qed.

Lemma inViewport_reducer (w : World) (ev : Event) :
  inViewport (state w) -> inViewport (state (reducer w ev)).
Proof.
  intro Hin.
  assert (H200 : inViewport (mkState false 200 0 3 0))
    by (split; unfold Qle; simpl; lia).
  destruct ev as [v|v|].
  3: { unfold reducer. rewrite resetPipes_spec. exact H200. }
  all: destruct (gameEnd (state w)) eqn:Hend;
    [ unfold reducer; rewrite Hend; exact Hin | ].
  all: match goal with |- inViewport (state (reducer ?w0 ?e)) =>
         destruct (reducer_cases w0 e) as [Hb|[[Hb Hc]|[Hb Hc]]] end.
  all: try (rewrite reducer_bounds by (assumption || discriminate);
            exact H200).
  all: try (rewrite reducer_hit by (assumption || discriminate);
            exact H200).
  all: rewrite reducer_clear by (assumption || discriminate);
       apply outOfBounds_false in Hb; exact Hb.
Qed.

(** ** Restart *)

(** C1.  From every prior world, ended or not, a restart event makes the
    reducer return exactly the initial state (not ended, bird at 200,
    velocity 0, three lives, score 0), empties the run trail, and leaves
    exactly one obstacle, the one [createPipe] has just built from the
    next value of [Math.random]: at the right edge, gap of 100 and not yet
    passed. *)
Theorem restart_resets_everything (w : World) :
  let w' := reducer w Restart in
  state w' = {| gameEnd := false; birdY := 200; vy := 0;
                lives := 3; score := 0 |}
  /\ state w' = initialState
  /\ currentRun w' = []
  /\ activePipes w' = [newPipe (random w (draws w))]
  /\ length (activePipes w') = 1%nat
  /\ Forall (fun p => x p = Viewport.CANVAS_WIDTH /\ passed p = false
                      /\ pipeGapHeight p = GAP_HEIGHT) (activePipes w').
Proof.
  unfold reducer. rewrite resetPipes_spec. simpl.
  repeat split; try reflexivity.
  constructor; [|constructor]. repeat split; reflexivity.
Qed.

(** ** Lives, score and the end flag *)

(** C2.  In every world reachable from the start, whatever the events,
    pipe frames and ghost ticks that led there: the game is ended exactly
    when no life is left, and neither [lives] nor [score] is negative. *)
Theorem reachable_consistent (w : World) :
  reachable w ->
  (gameEnd (state w) = true <-> (lives (state w) <= 0)%Z)
  /\ (0 <= lives (state w))%Z
  /\ (0 <= score (state w))%Z.
Proof.
  intro H.
  apply (reachable_ind_state consistent); [ | exact consistent_reducer | exact H].
  unfold consistent. simpl. repeat split; try lia; discriminate.
Qed.

Lemma reachable_consistent_witness :
  reachable endedWorld
  /\ (gameEnd (state endedWorld) = true <-> (lives (state endedWorld) <= 0)%Z)
  /\ (0 <= lives (state endedWorld))%Z
  /\ (0 <= score (state endedWorld))%Z.
Proof.
  assert (H : reachable endedWorld)
    by (unfold endedWorld; apply reachable_run; apply reachable_init).
  split; [exact H | exact (reachable_consistent endedWorld H)].
Defined.

(** C3.  One flap or gravity event on a live game costs at most one life.
    The boundary test comes first: when the tentative position is out of
    the viewport the step costs exactly one life whatever the pipes are.
    Otherwise the step costs exactly one life when some pipe collides at
    the tentative position, however many do, and none when no pipe does. *)
Theorem one_life_per_step (w : World) (ev : Event) :
  gameEnd (state w) = false -> ev <> Restart ->
  let l := lives (state w) in
  let l' := lives (state (reducer w ev)) in
  (hitBounds w ev = true -> l' = (l - 1)%Z)
  /\ (hitBounds w ev = false ->
      anyCollision (tentativeY w ev) (activePipes w) = true ->
      l' = (l - 1)%Z)
  /\ (hitBounds w ev = false ->
      anyCollision (tentativeY w ev) (activePipes w) = false ->
      l' = l)
  /\ (l - 1 <= l' <= l)%Z.
Proof.
  intros Hend Hev l l'. subst l l'.
  destruct (reducer_cases w ev) as [Hb|[[Hb Hc]|[Hb Hc]]].
  - rewrite reducer_bounds by assumption. cbn [state lives].
    repeat split; intros; try lia; congruence.
  - rewrite reducer_hit by assumption. cbn [state lives].
    repeat split; intros; try lia; congruence.
  - rewrite reducer_clear by assumption. cbn [state lives].
    repeat split; intros; try lia; congruence.
Qed.

Lemma one_life_per_step_witness :
  gameEnd (state fallingWorld) = false /\ Gravity 2 <> Restart
  /\ hitBounds fallingWorld (Gravity 2) = true
  /\ lives (state (reducer fallingWorld (Gravity 2)))
     = (lives (state fallingWorld) - 1)%Z.
Proof.
  assert (Hend : gameEnd (state fallingWorld) = false)
    by (vm_compute; reflexivity).
  assert (Hev : Gravity 2 <> Restart) by discriminate.
  assert (Hb : hitBounds fallingWorld (Gravity 2) = true)
    by (vm_compute; reflexivity).
  split; [exact Hend|]. split; [exact Hev|]. split; [exact Hb|].
  exact (proj1 (one_life_per_step fallingWorld (Gravity 2) Hend Hev) Hb).
Defined.

(** ** The ended game *)

(** C5.  Once the game is ended, every flap or gravity event is a no-op:
    the reducer returns the world it was given, so the state, the
    obstacles, the score, the run trail and the ghosts are all untouched;
    and this goes on for any number of such events, since only a restart
    is treated before the [gameEnd] test. *)
Theorem ended_is_frozen (w : World) (evs : list Event) :
  gameEnd (state w) = true ->
  Forall (fun ev => ev <> Restart) evs ->
  fold_left reducer evs w = w.
Proof.
  intros Hend Hall. induction Hall as [|ev evs Hev _ IH]; [reflexivity|].
  simpl. replace (reducer w ev) with w; [exact IH|].
  destruct ev; try congruence; unfold reducer; rewrite Hend; reflexivity.
Qed.

Lemma ended_is_frozen_witness :
  gameEnd (state endedWorld) = true
  /\ fold_left reducer [Gravity 2; Flap (-12); Gravity 2] endedWorld
     = endedWorld.
Proof.
  assert (Hend : gameEnd (state endedWorld) = true)
    by (vm_compute; reflexivity).
  split; [exact Hend|].
  apply (ended_is_frozen endedWorld [Gravity 2; Flap (-12); Gravity 2] Hend).
  repeat constructor; discriminate.
Defined.

(** ** The viewport *)

(** C10.  In every reachable world the bird is inside the viewport:
    [0 <= birdY] and [birdY + 30 <= 400], that is [birdY] lies in
    [[0, 370]].  A tentative position outside that range never reaches
    the snapshot: the step that computes it emits 200 instead. *)
Theorem bird_stays_in_viewport (w : World) :
  reachable w ->
  (0 <= birdY (state w)
   /\ birdY (state w) + Birb.HEIGHT <= Viewport.CANVAS_HEIGHT)
  /\ birdY (state w) <= 370
  /\ (forall ev,
        gameEnd (state w) = false -> ev <> Restart ->
        hitBounds w ev = true ->
        birdY (state (reducer w ev)) = 200).
Proof.
  intro H.
  assert (Hin : inViewport (state w)).
  { apply (reachable_ind_state inViewport);
      [ | exact inViewport_reducer | exact H].
    split; unfold Qle; simpl; lia. }
  split; [exact Hin|]. split.
  - destruct Hin as [_ Hhi]. unfold Birb.HEIGHT, Viewport.CANVAS_HEIGHT in Hhi.
    lra.
  - intros ev Hend Hev Hb. rewrite reducer_bounds by assumption. reflexivity.
Qed.

Lemma bird_stays_in_viewport_witness :
  reachable (run (initialWorld half) (ticks 13))
  /\ birdY (state (run (initialWorld half) (ticks 13))) <= 370.
Proof.
  assert (H : reachable (run (initialWorld half) (ticks 13)))
    by (apply reachable_run; apply reachable_init).
  split; [exact H|].
  exact (proj1 (proj2 (bird_stays_in_viewport _ H))).
Defined.

(** ** Losing a life at the boundary *)

(** C4.  Twelve ticks of free fall from the start bring the bird to 356
    with velocity 24 and three lives.  The thirteenth gravity event puts
    the tentative position at 382, below the floor, and no pipe is hit.
    The emitted state has two lives, the bird back at 200 and a single
    fresh obstacle, but its velocity is 26, the velocity of the fall, and
    not 0: the boundary branch resets [newBirdY] only, where the pipe
    branch returns [vy: 0]. *)
Theorem floor_loss_keeps_velocity :
  reachable fallingWorld
  /\ state fallingWorld = {| gameEnd := false; birdY := 356; vy := 24;
                             lives := 3; score := 0 |}
  /\ hitBounds fallingWorld (Gravity 2) = true
  /\ state (reducer fallingWorld (Gravity 2))
     = {| gameEnd := false; birdY := 200; vy := 26; lives := 2; score := 0 |}
  /\ activePipes (reducer fallingWorld (Gravity 2)) = [newPipe (1 # 2)]
  /\ ~ vy (state (reducer fallingWorld (Gravity 2))) == 0.
Proof.
  split; [unfold fallingWorld; apply reachable_run; apply reachable_init|].
  split; [vm_compute; reflexivity|].
  split; [vm_compute; reflexivity|].
  split; [vm_compute; reflexivity|].
  split; [vm_compute; reflexivity|].
  vm_compute. discriminate.
Qed.

(** The trail after one step of a live game, way by way. *)
Lemma trail_after_step (w : World) (ev : Event) :
  gameEnd (state w) = false -> ev <> Restart ->
  let wg := ghostOnLoss (lives (state w)) w in
  (hitBounds w ev = true ->
   currentRun (reducer w ev) = currentRun wg ++ [200])
  /\ (hitBounds w ev = false ->
      anyCollision (tentativeY w ev) (activePipes w) = true ->
      currentRun (reducer w ev) = currentRun wg)
  /\ (hitBounds w ev = false ->
      anyCollision (tentativeY w ev) (activePipes w) = false ->
      currentRun (reducer w ev) = currentRun w ++ [tentativeY w ev]).
Proof.
  intros Hend Hev wg. repeat split; intros.
  - rewrite reducer_bounds by assumption. reflexivity.
  - rewrite reducer_hit by assumption. reflexivity.
  - rewrite reducer_clear by assumption. reflexivity.
Qed.

(** C9.  The same thirteenth tick: the step is a boundary collision, the
    twelve samples of the run go to a ghost and the trail is emptied, and
    then the step still records a sample, the reset position 200.  The
    pipe branch returns before the recording; the boundary branch falls
    through to it.  On the tick that takes the last life the trail is not
    even emptied and 200 is appended to the samples of the lost run. *)
Theorem floor_loss_records_sample :
  hitBounds fallingWorld (Gravity 2) = true
  /\ currentRun fallingWorld
     = [202; 206; 212; 220; 230; 242; 256; 272; 290; 310; 332; 356]
  /\ currentRun (reducer fallingWorld (Gravity 2)) = [200]
  /\ ghosts (reducer fallingWorld (Gravity 2))
     = [mkGhost (currentRun fallingWorld) 0]
  /\ hitBounds (run (initialWorld half) (ticks 22)) (Gravity 2) = true
  /\ currentRun (run (initialWorld half) (ticks 22)) = [200; 240; 282; 326]
  /\ currentRun (reducer (run (initialWorld half) (ticks 22)) (Gravity 2))
     = [200; 240; 282; 326; 200].
Proof.
  repeat split; vm_compute; reflexivity.
Qed.

(** ** Ghosts *)

(** C8.  On a step of a live game that costs a life, at the boundary or
    at a pipe, a ghost is spawned exactly when the run trail is not empty
    and more than one life was in hand before the loss.  The ghost gets
    the samples of the trail, at cursor 0, and the trail is emptied: no
    old sample is left in it (after a pipe collision it is empty; after a
    boundary collision it holds the one sample that the same step records
    after the emptying).  Otherwise the ghosts are as before; in
    particular no ghost is spawned by the loss that ends the game. *)
Theorem ghost_on_life_loss (w : World) (ev : Event) :
  gameEnd (state w) = false -> ev <> Restart ->
  lives (state (reducer w ev)) = (lives (state w) - 1)%Z ->
  let w' := reducer w ev in
  (currentRun w <> [] /\ (1 < lives (state w))%Z ->
   ghosts w' = ghosts w ++ [mkGhost (currentRun w) 0]
   /\ currentRun (ghostOnLoss (lives (state w)) w) = []
   /\ currentRun w' = if hitBounds w ev then [200] else [])
  /\ (~ (currentRun w <> [] /\ (1 < lives (state w))%Z) ->
      ghosts w' = ghosts w)
  /\ (gameEnd (state w') = true -> ghosts w' = ghosts w).
Proof.
  intros Hend Hev Hloss w'. subst w'.
  set (l := lives (state w)) in *.
  assert (Hyes : spawns l w = true ->
            ghosts (ghostOnLoss l w) = ghosts w ++ [mkGhost (currentRun w) 0]
            /\ currentRun (ghostOnLoss l w) = [])
    by apply ghostOnLoss_spawn.
  assert (Hno : spawns l w = false -> ghosts (ghostOnLoss l w) = ghosts w)
    by (intro E; rewrite ghostOnLoss_skip by exact E; reflexivity).
  assert (Hlast : (l - 1 <= 0)%Z -> spawns l w = false).
  { intro Hle. destruct (spawns l w) eqn:E; [|reflexivity].
    apply spawns_iff in E. lia. }
  assert (Hnot : ~ (currentRun w <> [] /\ (1 < l)%Z) -> spawns l w = false).
  { intro Hn. destruct (spawns l w) eqn:E; [|reflexivity].
    apply spawns_iff in E. contradiction. }
  destruct (reducer_cases w ev) as [Hb|[[Hb Hc]|[Hb Hc]]].
  - rewrite reducer_bounds in * by assumption. fold l.
    cbn [state ghosts currentRun gameEnd lives] in *. rewrite Hb.
    split; [|split].
    + intro Hs. apply spawns_iff in Hs. destruct (Hyes Hs) as [Hg Hr].
      rewrite Hg, Hr. repeat split; reflexivity.
    + intro Hn. apply Hno, Hnot, Hn.
    + intro Hg. apply Hno, Hlast. apply Z.leb_le. exact Hg.
  - rewrite reducer_hit in * by assumption. fold l.
    cbn [state ghosts currentRun gameEnd lives] in *. rewrite Hb.
    split; [|split].
    + intro Hs. apply spawns_iff in Hs. destruct (Hyes Hs) as [Hg Hr].
      rewrite Hg, Hr. repeat split; reflexivity.
    + intro Hn. apply Hno, Hnot, Hn.
    + intro Hg. apply Hno, Hlast.
      destruct (Z.leb_spec (l - 1) 0); [assumption|].
      apply Z.leb_le in Hg. lia.
  - rewrite reducer_clear in Hloss by assumption.
    cbn [state lives] in Hloss. lia.
Qed.

Lemma ghost_on_life_loss_witness :
  gameEnd (state fallingWorld) = false /\ Gravity 2 <> Restart
  /\ lives (state (reducer fallingWorld (Gravity 2)))
     = (lives (state fallingWorld) - 1)%Z
  /\ (currentRun fallingWorld <> [] /\ (1 < lives (state fallingWorld))%Z)
  /\ ghosts (reducer fallingWorld (Gravity 2))
     = ghosts fallingWorld ++ [mkGhost (currentRun fallingWorld) 0].
Proof.
  assert (Hend : gameEnd (state fallingWorld) = false)
    by (vm_compute; reflexivity).
  assert (Hev : Gravity 2 <> Restart) by discriminate.
  assert (Hloss : lives (state (reducer fallingWorld (Gravity 2)))
                  = (lives (state fallingWorld) - 1)%Z)
    by (vm_compute; reflexivity).
  assert (Hrun : currentRun fallingWorld <> []
                 /\ (1 < lives (state fallingWorld))%Z)
    by (split; [vm_compute; discriminate | vm_compute; reflexivity]).
  split; [exact Hend|]. split; [exact Hev|]. split; [exact Hloss|].
  split; [exact Hrun|].
  exact (proj1 (proj1 (ghost_on_life_loss fallingWorld (Gravity 2)
                         Hend Hev Hloss) Hrun)).
Defined.

(** ** The first tick and the first flap *)

(** C6, as stated, fails.  Ninety-four ticks into a real run the state is
    again [{birdY: 200, vy: 0, lives: 3, score: 0, gameEnd: false}]; the
    first obstacle is at 125, wholly behind the bird ([125 + 50 < 180]),
    and the other two are far ahead: nothing overlaps the bird, at 200 or
    at 202.  One gravity event of +2 still emits score 1, because the
    obstacle behind the bird had not been counted yet. *)
Lemma straggler_scores_on_first_tick :
  reachable lateStartWorld
  /\ state lateStartWorld = {| gameEnd := false; birdY := 200; vy := 0;
                               lives := 3; score := 0 |}
  /\ Forall2 samePipe (activePipes lateStartWorld)
       [mkPipe 125 180 100 false; mkPipe (615 # 2) 180 100 false;
        mkPipe 490 180 100 false]
  /\ anyCollision 200 (activePipes lateStartWorld) = false
  /\ anyCollision 202 (activePipes lateStartWorld) = false
  /\ state (reducer lateStartWorld (Gravity 2))
     = {| gameEnd := false; birdY := 202; vy := 2; lives := 3; score := 1 |}
  /\ state (reducer lateStartWorld (Gravity 2))
     <> {| gameEnd := false; birdY := 202; vy := 2; lives := 3; score := 0 |}.
Proof.
  split; [unfold lateStartWorld; apply reachable_run; apply reachable_init|].
  split; [vm_compute; reflexivity|].
  split.
  { unfold samePipe. vm_compute.
    repeat (apply Forall2_cons || apply Forall2_nil); repeat split. }
  split; [vm_compute; reflexivity|]. split; [vm_compute; reflexivity|].
  split; [vm_compute; reflexivity|].
  vm_compute. discriminate.
Qed.

(** C6, amended.  From the state [{birdY: 200, vy: 0, lives: 3, score: 0,
    gameEnd: false}], when no obstacle collides with the bird at its new
    height and no obstacle is waiting to be counted (not yet passed, right
    edge left of 180), one gravity event of +2 emits
    [{birdY: 202, vy: 2, lives: 3, score: 0, gameEnd: false}].  From that
    state, whatever the pipe frames did in between, when no obstacle
    collides at the new height a flap of -12 replaces the velocity: the
    emitted state has [vy = -12], not [-10], and [birdY = 190]. *)
Theorem first_tick_then_flap (w w' : World) :
  state w = {| gameEnd := false; birdY := 200; vy := 0;
               lives := 3; score := 0 |} ->
  anyCollision 202 (activePipes w) = false ->
  filter scores (activePipes w) = [] ->
  state w' = state (reducer w (Gravity 2)) ->
  anyCollision 190 (activePipes w') = false ->
  state (reducer w (Gravity 2))
  = {| gameEnd := false; birdY := 202; vy := 2; lives := 3; score := 0 |}
  /\ vy (state (reducer w' (Flap (-12)))) = -12
  /\ birdY (state (reducer w' (Flap (-12)))) = 190.
Proof.
  intros Hst Hc Hs Hst' Hc'.
  assert (Hy : tentativeY w (Gravity 2) = 202)
    by (unfold tentativeY, nextVy; rewrite Hst; reflexivity).
  assert (Hb : hitBounds w (Gravity 2) = false)
    by (unfold hitBounds; fold (tentativeY w (Gravity 2)); rewrite Hy;
        reflexivity).
  assert (Hend : gameEnd (state w) = false) by (rewrite Hst; reflexivity).
  assert (H1 : state (reducer w (Gravity 2))
               = {| gameEnd := false; birdY := 202; vy := 2;
                    lives := 3; score := 0 |}).
  { rewrite reducer_clear; try assumption; try discriminate.
    - cbn [state]. rewrite Hy, Hs. unfold nextVy. rewrite Hst. reflexivity.
    - rewrite Hy. exact Hc. }
  split; [exact H1|].
  rewrite H1 in Hst'.
  assert (Hy' : tentativeY w' (Flap (-12)) = 190)
    by (unfold tentativeY, nextVy; rewrite Hst'; reflexivity).
  assert (Hb' : hitBounds w' (Flap (-12)) = false)
    by (unfold hitBounds; fold (tentativeY w' (Flap (-12))); rewrite Hy';
        reflexivity).
  assert (Hend' : gameEnd (state w') = false) by (rewrite Hst'; reflexivity).
  rewrite reducer_clear; try assumption; try discriminate.
  - cbn [state vy birdY]. rewrite Hy'. split; reflexivity.
  - rewrite Hy'. exact Hc'.
Qed.

Lemma first_tick_then_flap_witness :
  state startWorld = {| gameEnd := false; birdY := 200; vy := 0;
                        lives := 3; score := 0 |}
  /\ anyCollision 202 (activePipes startWorld) = false
  /\ filter scores (activePipes startWorld) = []
  /\ state tickedWorld = state (reducer startWorld (Gravity 2))
  /\ anyCollision 190 (activePipes tickedWorld) = false
  /\ state (reducer startWorld (Gravity 2))
     = {| gameEnd := false; birdY := 202; vy := 2; lives := 3; score := 0 |}
  /\ vy (state (reducer tickedWorld (Flap (-12)))) = -12
  /\ birdY (state (reducer tickedWorld (Flap (-12)))) = 190.
Proof.
  assert (H1 : state startWorld
               = {| gameEnd := false; birdY := 200; vy := 0;
                    lives := 3; score := 0 |}) by reflexivity.
  assert (H2 : anyCollision 202 (activePipes startWorld) = false)
    by (vm_compute; reflexivity).
  assert (H3 : filter scores (activePipes startWorld) = [])
    by (vm_compute; reflexivity).
  assert (H4 : state tickedWorld = state (reducer startWorld (Gravity 2)))
    by (vm_compute; reflexivity).
  assert (H5 : anyCollision 190 (activePipes tickedWorld) = false)
    by (vm_compute; reflexivity).
  split; [exact H1|]. split; [exact H2|]. split; [exact H3|].
  split; [exact H4|]. split; [exact H5|].
  exact (first_tick_then_flap startWorld tickedWorld H1 H2 H3 H4 H5).
Defined.

(** ** Scoring *)

Lemma scores_markPassed (p : Pipe) : scores (markPassed p) = false.
Proof.
  unfold markPassed. destruct (scores p) eqn:E; [reflexivity | exact E].
Qed.

Lemma passed_moveLeft (p : Pipe) (k : nat) :
  passed (Nat.iter k moveLeft p) = passed p.
Proof.
  induction k as [|k IH]; [reflexivity|]. simpl. exact IH.
Qed.

Lemma passed_never_scores (p : Pipe) (k : nat) :
  passed p = true -> scores (Nat.iter k moveLeft p) = false.
Proof.
  intro H. unfold scores. rewrite passed_moveLeft, H. reflexivity.
Qed.

Lemma scored_is_passed (p : Pipe) :
  scores p = true -> passed (markPassed p) = true.
Proof.
  intro H. unfold markPassed. rewrite H. reflexivity.
Qed.

(** Each point of score uses up one unset [passed] flag. *)
Lemma unpassed_markPassed (pipes : list Pipe) :
  (length (filter scores pipes) + unpassed (map markPassed pipes)
   = unpassed pipes)%nat.
Proof.
  unfold unpassed. induction pipes as [|p ps IH]; [reflexivity|].
  simpl. unfold markPassed at 1. destruct (scores p) eqn:E.
  - unfold scores in E. apply andb_true_iff in E. destruct E as [E _].
    rewrite E. simpl. lia.
  - destruct (negb (passed p)); simpl; lia.
Qed.

(** C7, as stated, fails.  Ninety-four ticks into a real run of a live
    game no obstacle is countable; the two pipe frames of the next tick
    bring the first obstacle to 125, so that the bird's horizontal
    position has cleared its right edge ([125 + 50 < 180]) for the first
    time.  The gravity event of that tick takes the bird through the
    floor: the score stays where it was, and the reset destroys the
    obstacle, so it is never counted at all. *)
Lemma cleared_pipe_lost_to_floor :
  reachable lateFloorWorld
  /\ state lateFloorWorld = {| gameEnd := false; birdY := 354; vy := 16;
                               lives := 3; score := 0 |}
  /\ map scores (activePipes lowWorld) = [false; false; false]
  /\ Forall2 samePipe (activePipes lateFloorWorld)
       [mkPipe 125 270 100 false; mkPipe (615 # 2) 270 100 false;
        mkPipe 490 270 100 false]
  /\ map scores (activePipes lateFloorWorld) = [true; false; false]
  /\ hitBounds lateFloorWorld (Gravity 2) = true
  /\ score (state (reducer lateFloorWorld (Gravity 2)))
     = score (state lateFloorWorld)
  /\ score (state (reducer lateFloorWorld (Gravity 2)))
     <> (score (state lateFloorWorld) + 1)%Z
  /\ activePipes (reducer lateFloorWorld (Gravity 2)) = [newPipe (25 # 26)].
Proof.
  split.
  { unfold lateFloorWorld, lowWorld.
    apply reachable_run, reachable_run, reachable_init. }
  split; [vm_compute; reflexivity|]. split; [vm_compute; reflexivity|].
  split.
  { unfold samePipe. vm_compute.
    repeat (apply Forall2_cons || apply Forall2_nil); repeat split. }
  split; [vm_compute; reflexivity|]. split; [vm_compute; reflexivity|].
  split; [vm_compute; reflexivity|].
  split; [vm_compute; discriminate|].
  vm_compute. reflexivity.
Qed.

(** One step never takes the flag back: the obstacle at place [i], if the
    step leaves it in the array, is at the tracked place afterwards, with
    the same gap, not further right, and still passed if it was. *)
Lemma track_step_sound (w : World) (a : Action) (i j : nat) (p : Pipe) :
  nth_error (activePipes w) i = Some p ->
  trackStep w a i = Some j ->
  exists q,
    nth_error (activePipes (step w a)) j = Some q
    /\ gapY q = gapY p /\ pipeGapHeight q = pipeGapHeight p
    /\ x q <= x p
    /\ (passed p = true -> passed q = true).
Proof.
  intros Hnth Htr.
  assert (Hsame : exists q, nth_error (activePipes w) i = Some q
            /\ gapY q = gapY p /\ pipeGapHeight q = pipeGapHeight p
            /\ x q <= x p /\ (passed p = true -> passed q = true)).
  { exists p. repeat split; try assumption; try reflexivity.
    apply Qle_refl. tauto. }
  destruct a as [ev| |g]; cbn [trackStep] in Htr.
  - change (activePipes (step w (Ev ev))) with (activePipes (reducer w ev)).
    unfold trackEvent in Htr.
    destruct ev as [v|v|]; [| |discriminate].
    all: destruct (gameEnd (state w)) eqn:Hend;
      [ injection Htr as <-; unfold reducer; rewrite Hend; exact Hsame | ].
    all: destruct (hitBounds w _) eqn:Hb; [discriminate|].
    all: destruct (anyCollision _ _) eqn:Hc; [discriminate|].
    all: injection Htr as <-.
    all: rewrite reducer_clear by (assumption || discriminate).
    all: cbn [activePipes]; rewrite nth_error_map, Hnth; cbn [option_map].
    all: exists (markPassed p); unfold markPassed; destruct (scores p);
      repeat split; try reflexivity; try apply Qle_refl; tauto.
  - cbn [step]. unfold trackFrame in Htr. unfold advancePipes.
    destruct (livesText w <=? 0)%Z; [injection Htr as <-; exact Hsame|].
    rewrite Hnth in Htr.
    destruct (onScreen (moveLeft p)) eqn:Hon; [|discriminate].
    injection Htr as <-.
    destruct (nth_error_split _ _ Hnth) as (l1 & l2 & Hl & Hlen).
    rewrite Hl. subst i.
    rewrite firstn_app, Nat.sub_diag, firstn_all. cbn [firstn].
    rewrite app_nil_r, map_app, filter_app. cbn [map filter]. rewrite Hon.
    set (k1 := filter onScreen (map moveLeft l1)).
    set (k2 := filter onScreen (map moveLeft l2)).
    assert (Hq : gapY (moveLeft p) = gapY p
                 /\ pipeGapHeight (moveLeft p) = pipeGapHeight p
                 /\ x (moveLeft p) <= x p
                 /\ (passed p = true -> passed (moveLeft p) = true)).
    { repeat split; try reflexivity; [|tauto].
      unfold moveLeft, PIPE_SPEED. cbn [x]. lra. }
    assert (Hat : forall tail,
              nth_error ((k1 ++ moveLeft p :: k2) ++ tail) (length k1)
              = Some (moveLeft p)).
    { intro tail. rewrite <- app_assoc.
      rewrite nth_error_app2 by lia. rewrite Nat.sub_diag. reflexivity. }
    exists (moveLeft p). split; [|exact Hq].
    destruct (rev (k1 ++ moveLeft p :: k2)) as [|lastPipe r0].
    + apply Hat.
    + destruct (Qltb (x lastPipe) SPAWN_THRESHOLD).
      * apply Hat.
      * cbn [activePipes set_activePipes].
        rewrite <- (app_nil_r (k1 ++ moveLeft p :: k2)). apply Hat.
  - injection Htr as <-. exact Hsame.
Qed.

(** An obstacle that is passed stays passed for as long as it is in the
    array, whatever events, pipe frames and ghost ticks come. *)
Lemma track_sound (acts : list Action) :
  forall (w : World) (i j : nat) (p : Pipe),
    nth_error (activePipes w) i = Some p ->
    passed p = true ->
    track w acts i = Some j ->
    exists q,
      nth_error (activePipes (fold_left step acts w)) j = Some q
      /\ passed q = true
      /\ gapY q = gapY p /\ pipeGapHeight q = pipeGapHeight p
      /\ x q <= x p.
Proof.
  induction acts as [|a acts IH]; intros w i j p Hnth Hp Htr.
  - injection Htr as <-. exists p. repeat split; try assumption.
    apply Qle_refl.
  - cbn [track] in Htr. destruct (trackStep w a i) as [k|] eqn:Hk;
      [|discriminate].
    destruct (track_step_sound w a i k p Hnth Hk)
      as (q & Hq & Hg & Hh & Hx & Hpq).
    destruct (IH (step w a) k j q Hq (Hpq Hp) Htr)
      as (q' & Hq' & Hp' & Hg' & Hh' & Hx').
    exists q'. cbn [fold_left].
    repeat split; try assumption; try congruence.
    apply (Qle_trans _ (x q)); assumption.
Qed.

(** An obstacle that the test of line 826 rejects adds nothing to what a
    scan can count. *)
Lemma uncounted (pipes : list Pipe) (j : nat) (q : Pipe) :
  nth_error pipes j = Some q -> scores q = false ->
  filter scores pipes = filter scores (removeAt j pipes).
Proof.
  intros Hnth Hq.
  destruct (nth_error_split _ _ Hnth) as (l1 & l2 & -> & <-).
  unfold removeAt.
  rewrite firstn_app, Nat.sub_diag, firstn_all. cbn [firstn].
  rewrite app_nil_r.
  replace (skipn (S (length l1)) (l1 ++ q :: l2)) with l2.
  - rewrite !filter_app. cbn [filter]. rewrite Hq. reflexivity.
  - rewrite skipn_app.
    replace (S (length l1) - length l1)%nat with 1%nat by lia.
    rewrite skipn_all2 by lia. reflexivity.
Qed.

(** No event that is not a restart raises the score by more than the
    number of obstacles the test of line 826 accepts. *)
Lemma reducer_score_upper (w : World) (ev : Event) :
  ev <> Restart ->
  (score (state (reducer w ev))
   <= score (state w) + Z.of_nat (length (filter scores (activePipes w))))%Z.
Proof.
  intro Hev. destruct (gameEnd (state w)) eqn:Hend.
  - replace (reducer w ev) with w; [lia|].
    destruct ev; try congruence; unfold reducer; rewrite Hend; reflexivity.
  - destruct (reducer_cases w ev) as [Hb|[[Hb Hc]|[Hb Hc]]].
    + rewrite reducer_bounds by assumption. cbn [state score]. lia.
    + rewrite reducer_hit by assumption. cbn [state score].
      apply scan_upper.
    + rewrite reducer_clear by assumption. cbn [state score]. lia.
Qed.

(** C7, amended.  On a flap or gravity step of a live game that has no
    boundary collision and no obstacle collision, the score grows by
    exactly one for each obstacle whose [passed] flag is unset and whose
    right edge is left of the bird's horizontal position, and each of
    those obstacles is then marked passed.  After the step no obstacle is
    left to count, and every point of score has used up one unset flag.
    From then on, through any run of events, pipe frames and ghost ticks,
    an obstacle that is marked passed is still marked passed wherever it
    is in the array, for as long as it is in the array (the same gap, not
    further right); the test of line 826 rejects it, and no later flap or
    gravity event raises the score by more than the number of the other
    obstacles that the test accepts: it is never counted again. *)
Theorem score_once_per_scanned_pipe (w : World) (ev : Event) :
  gameEnd (state w) = false -> ev <> Restart ->
  hitBounds w ev = false ->
  anyCollision (tentativeY w ev) (activePipes w) = false ->
  let w' := reducer w ev in
  score (state w')
  = (score (state w) + Z.of_nat (length (filter scores (activePipes w))))%Z
  /\ activePipes w' = map markPassed (activePipes w)
  /\ (forall p, In p (activePipes w) -> scores p = true ->
                passed (markPassed p) = true)
  /\ (forall p, In p (activePipes w') -> scores p = false)
  /\ (forall p k, passed p = true -> scores (Nat.iter k moveLeft p) = false)
  /\ (score (state w') + Z.of_nat (unpassed (activePipes w'))
      = score (state w) + Z.of_nat (unpassed (activePipes w)))%Z
  /\ (forall i p acts j,
        nth_error (activePipes w') i = Some p -> passed p = true ->
        track w' acts i = Some j ->
        exists q,
          nth_error (activePipes (run w' acts)) j = Some q
          /\ passed q = true /\ scores q = false
          /\ gapY q = gapY p /\ pipeGapHeight q = pipeGapHeight p
          /\ x q <= x p
          /\ (forall ev', ev' <> Restart ->
                (score (state (reducer (run w' acts) ev'))
                 <= score (state (run w' acts))
                    + Z.of_nat (length (filter scores
                                  (removeAt j (activePipes (run w' acts))))))%Z)).
Proof.
  intros Hend Hev Hb Hc w'.
  assert (Hlater : forall i p acts j,
            nth_error (activePipes w') i = Some p -> passed p = true ->
            track w' acts i = Some j ->
            exists q,
              nth_error (activePipes (run w' acts)) j = Some q
              /\ passed q = true /\ scores q = false
              /\ gapY q = gapY p /\ pipeGapHeight q = pipeGapHeight p
              /\ x q <= x p
              /\ (forall ev', ev' <> Restart ->
                    (score (state (reducer (run w' acts) ev'))
                     <= score (state (run w' acts))
                        + Z.of_nat (length (filter scores
                             (removeAt j (activePipes (run w' acts))))))%Z)).
  { intros i p acts j Hnth Hp Htr.
    destruct (track_sound acts w' i j p Hnth Hp Htr)
      as (q & Hq & Hpq & Hg & Hh & Hx).
    assert (Hsq : scores q = false)
      by (unfold scores; rewrite Hpq; reflexivity).
    exists q. unfold run.
    repeat split; try assumption.
    intros ev' Hev'.
    rewrite <- (uncounted _ j q Hq Hsq).
    apply reducer_score_upper. exact Hev'. }
  revert Hlater. subst w'.
  rewrite reducer_clear by assumption. cbn [state score activePipes].
  intro Hlater.
  split; [reflexivity|]. split; [reflexivity|].
  split; [intros p _; apply scored_is_passed|].
  split.
  - intros p Hin. apply in_map_iff in Hin. destruct Hin as (q & <- & _).
    apply scores_markPassed.
  - split; [intros p k; apply passed_never_scores|].
    split; [|exact Hlater].
    pose proof (unpassed_markPassed (activePipes w)). lia.
Qed.

Lemma score_once_per_scanned_pipe_witness :
  gameEnd (state lateStartWorld) = false /\ Gravity 2 <> Restart
  /\ hitBounds lateStartWorld (Gravity 2) = false
  /\ anyCollision (tentativeY lateStartWorld (Gravity 2))
                  (activePipes lateStartWorld) = false
  /\ score (state (reducer lateStartWorld (Gravity 2)))
     = (score (state lateStartWorld)
        + Z.of_nat (length (filter scores (activePipes lateStartWorld))))%Z
  /\ track (reducer lateStartWorld (Gravity 2)) (ticks 3) 0 = Some 0%nat
  /\ exists q,
       nth_error (activePipes (run (reducer lateStartWorld (Gravity 2))
                                   (ticks 3))) 0 = Some q
       /\ passed q = true /\ scores q = false.
Proof.
  assert (Hend : gameEnd (state lateStartWorld) = false)
    by (vm_compute; reflexivity).
  assert (Hev : Gravity 2 <> Restart) by discriminate.
  assert (Hb : hitBounds lateStartWorld (Gravity 2) = false)
    by (vm_compute; reflexivity).
  assert (Hc : anyCollision (tentativeY lateStartWorld (Gravity 2))
                            (activePipes lateStartWorld) = false)
    by (vm_compute; reflexivity).
  pose proof (score_once_per_scanned_pipe lateStartWorld (Gravity 2)
                Hend Hev Hb Hc) as (Hs & _ & _ & _ & _ & _ & Hlater).
  assert (Hnth : nth_error (activePipes (reducer lateStartWorld (Gravity 2))) 0
                 = Some (nth 0 (activePipes (reducer lateStartWorld
                                                     (Gravity 2)))
                             (newPipe 0)))
    by (vm_compute; reflexivity).
  assert (Hp : passed (nth 0 (activePipes (reducer lateStartWorld (Gravity 2)))
                           (newPipe 0)) = true)
    by (vm_compute; reflexivity).
  assert (Htr : track (reducer lateStartWorld (Gravity 2)) (ticks 3) 0
                = Some 0%nat)
    by (vm_compute; reflexivity).
  split; [exact Hend|]. split; [exact Hev|]. split; [exact Hb|].
  split; [exact Hc|]. split; [exact Hs|]. split; [exact Htr|].
  destruct (Hlater 0%nat _ (ticks 3) 0%nat Hnth Hp Htr)
    as (q & Hq & Hpq & Hsq & _).
  exists q. split; [exact Hq|]. split; [exact Hpq | exact Hsq].
Defined.

(** * Further properties of the code *)

(** Unfold the constants of the program so that [lra] sees numbers. *)
Ltac constants :=
  unfold apart in *;
  cbn [x gapY pipeGapHeight passed newPipe moveLeft] in *;
  unfold SPAWN_DISTANCE, SPAWN_THRESHOLD, PIPE_SPEED, GAP_HEIGHT,
    birdRight, birdLeft,
    Viewport.CANVAS_WIDTH, Viewport.CANVAS_HEIGHT, Birb.WIDTH, Birb.HEIGHT,
    Constants.PIPE_WIDTH in *.

(** ** What one step does to the pipes *)

Lemma reducer_pipes (w : World) (ev : Event) :
  activePipes (reducer w ev) = activePipes w
  \/ activePipes (reducer w ev) = map markPassed (activePipes w)
  \/ activePipes (reducer w ev) = [newPipe (random w (draws w))].
Proof.
  destruct (gameEnd (state w)) eqn:Hend.
  - destruct ev as [v|v|].
    + left. unfold reducer. rewrite Hend. reflexivity.
    + left. unfold reducer. rewrite Hend. reflexivity.
    + right; right. unfold reducer. rewrite resetPipes_spec. reflexivity.
  - destruct ev as [v|v|].
    3: { right; right. unfold reducer. rewrite resetPipes_spec. reflexivity. }
    all: match goal with |- context [reducer ?w0 ?e] =>
           destruct (reducer_cases w0 e) as [Hb|[[Hb Hc]|[Hb Hc]]] end.
    all: try (right; right;
              rewrite reducer_bounds by (assumption || discriminate);
              reflexivity).
    all: try (right; right;
              rewrite reducer_hit by (assumption || discriminate);
              reflexivity).
    all: right; left; rewrite reducer_clear by (assumption || discriminate);
         reflexivity.
Qed.

Lemma advancePipes_pipes (w : World) :
  let kept := filter onScreen (map moveLeft (activePipes w)) in
  activePipes (advancePipes w) = activePipes w
  \/ activePipes (advancePipes w) = kept
  \/ activePipes (advancePipes w) = kept ++ [newPipe (random w (draws w))].
Proof.
  intro kept. unfold advancePipes. fold kept.
  destruct (livesText w <=? 0)%Z; [left; reflexivity|].
  destruct (rev kept) as [|p l]; [right; right; reflexivity|].
  destruct (Qltb (x p) SPAWN_THRESHOLD);
    [right; right; reflexivity | right; left; reflexivity].
Qed.

Lemma x_markPassed (p : Pipe) : x (markPassed p) = x p.
Proof. unfold markPassed. destruct (scores p); reflexivity. Qed.

Lemma onScreen_iff (p : Pipe) :
  onScreen p = true <-> - Constants.PIPE_WIDTH < x p.
Proof.
  unfold onScreen, Qgtb. rewrite Qltb_true_iff.
  unfold Constants.PIPE_WIDTH. split; intro; lra.
Qed.

(** ** Spacing of the pipes *)

Lemma sorted_snoc {A : Type} (R : A -> A -> Prop) (l : list A) (a : A) :
  StronglySorted R (l ++ [a])
  <-> StronglySorted R l /\ Forall (fun q => R q a) l.
Proof.
  induction l as [|b l IH]; simpl.
  - split; intros; [split; constructor | repeat constructor].
  - split.
    + intro H. inversion H as [|? ? Hs Hf]; subst.
      apply IH in Hs. destruct Hs as [Hs Ha].
      apply Forall_app in Hf. destruct Hf as [Hf Hba].
      inversion Hba; subst.
      split; constructor; assumption.
    + intros [H Hf]. inversion H as [|? ? Hs Hb]; subst.
      inversion Hf as [|? ? Hba Hfa]; subst.
      constructor.
      * apply IH. split; assumption.
      * apply Forall_app. split; [assumption|]. repeat constructor. assumption.
Qed.

Lemma sorted_filter {A : Type} (R : A -> A -> Prop) (f : A -> bool)
      (l : list A) :
  StronglySorted R l -> StronglySorted R (filter f l).
Proof.
  induction 1 as [|a l Hs IH Hf]; simpl; [constructor|].
  destruct (f a); [|exact IH]. constructor; [exact IH|].
  apply Forall_forall. intros q Hq. apply filter_In in Hq.
  rewrite Forall_forall in Hf. apply Hf. tauto.
Qed.

Lemma sorted_map {A : Type} (R : A -> A -> Prop) (g : A -> A) (l : list A) :
  (forall a b, R a b -> R (g a) (g b)) ->
  StronglySorted R l -> StronglySorted R (map g l).
Proof.
  intros Hg. induction 1 as [|a l Hs IH Hf]; simpl; constructor.
  - exact IH.
  - apply Forall_forall. intros q Hq. apply in_map_iff in Hq.
    destruct Hq as (b & <- & Hb). rewrite Forall_forall in Hf. auto.
Qed.

(** Among pipes in spawn order, no two satisfy a test that pipes more than
    the spawn distance apart cannot both satisfy. *)
Lemma sorted_at_most_one (f : Pipe -> bool) (l : list Pipe) :
  (forall p q, apart p q -> f p = true -> f q = true -> False) ->
  StronglySorted apart l -> (length (filter f l) <= 1)%nat.
Proof.
  intros Hex. induction 1 as [|a l Hs IH Hf]; simpl; [lia|].
  destruct (f a) eqn:Ea; [|exact IH].
  assert (Hnil : filter f l = []).
  { destruct (filter f l) as [|q r] eqn:E; [reflexivity|]. exfalso.
    assert (Hq : In q (filter f l)) by (rewrite E; left; reflexivity).
    apply filter_In in Hq. destruct Hq as [Hin Hfq].
    rewrite Forall_forall in Hf. exact (Hex a q (Hf q Hin) Ea Hfq). }
  rewrite Hnil. simpl. lia.
Qed.

Lemma pipesOK_new (r : Q) : pipesOK [newPipe r].
Proof.
  split; [|split].
  - repeat constructor.
  - repeat constructor.
  - exists [], (newPipe r). split; [reflexivity|].
    constants. lra.
Qed.

Lemma pipesOK_marked (pipes : list Pipe) :
  pipesOK pipes -> pipesOK (map markPassed pipes).
Proof.
  intros (Hon & Hs & older & p & -> & Hlo & Hhi). split; [|split].
  - apply Forall_forall. intros q Hq. apply in_map_iff in Hq.
    destruct Hq as (b & <- & Hb). rewrite Forall_forall in Hon.
    specialize (Hon b Hb). unfold onScreen in *. rewrite x_markPassed.
    exact Hon.
  - apply sorted_map; [|exact Hs]. intros a b. unfold apart.
    rewrite !x_markPassed. tauto.
  - exists (map markPassed older), (markPassed p).
    rewrite map_app, x_markPassed. repeat split; assumption.
Qed.

Lemma pipesOK_frame (w : World) :
  pipesOK (activePipes w) -> pipesOK (activePipes (advancePipes w)).
Proof.
  intros (Hon & Hs & older & p & Hps & Hlo & Hhi).
  unfold advancePipes. destruct (livesText w <=? 0)%Z.
  { split; [exact Hon|]. split; [exact Hs|]. exists older, p. tauto. }
  rewrite Hps, map_app, filter_app. cbn [map filter].
  assert (Hp : onScreen (moveLeft p) = true).
  { apply onScreen_iff. constants. lra. }
  rewrite Hp.
  set (kolder := filter onScreen (map moveLeft older)).
  assert (Hkept : StronglySorted apart (kolder ++ [moveLeft p])).
  { replace (kolder ++ [moveLeft p])
      with (filter onScreen (map moveLeft (older ++ [p])))
      by (rewrite map_app, filter_app; cbn [map filter]; rewrite Hp;
          reflexivity).
    apply sorted_filter, sorted_map.
    - intros a b. constants. intro. lra.
    - rewrite <- Hps. exact Hs. }
  assert (Hkon : Forall (fun q => onScreen q = true) (kolder ++ [moveLeft p])).
  { apply Forall_app. split.
    - apply Forall_forall. intros q Hq. apply filter_In in Hq. tauto.
    - repeat constructor. exact Hp. }
  rewrite rev_app_distr. cbn [rev app].
  destruct (Qltb (x (moveLeft p)) SPAWN_THRESHOLD) eqn:Hth.
  - apply Qltb_true_iff in Hth. cbn [activePipes createPipe set_draws
      set_activePipes draws random].
    split; [|split].
    + apply Forall_app. split; [exact Hkon|]. repeat constructor.
    + apply sorted_snoc. split; [exact Hkept|].
      apply sorted_snoc in Hkept. destruct Hkept as [_ Hbefore].
      apply Forall_app. split.
      * apply Forall_forall. intros q Hq. rewrite Forall_forall in Hbefore.
        specialize (Hbefore q Hq). constants. lra.
      * repeat constructor. constants. lra.
    + eexists _, _. split; [reflexivity|]. constants. lra.
  - apply Qltb_false_iff in Hth. cbn [activePipes set_activePipes].
    split; [exact Hkon|]. split; [exact Hkept|].
    exists kolder, (moveLeft p). split; [reflexivity|].
    split; [exact Hth|]. constants. lra.
Qed.

Lemma reachable_pipesOK (w : World) :
  reachable w -> pipesOK (activePipes w).
Proof.
  induction 1 as [rnd|w a H IH].
  - apply pipesOK_new.
  - destruct a as [ev| |i].
    + change (activePipes (step w (Ev ev)))
        with (activePipes (reducer w ev)).
      destruct (reducer_pipes w ev) as [E|[E|E]]; rewrite E.
      * exact IH.
      * apply pipesOK_marked, IH.
      * apply pipesOK_new.
    + apply pipesOK_frame, IH.
    + exact IH.
Qed.

(** ** The collision test *)

Lemma hits_overlaps (y : Q) (p : Pipe) : hits y p = true -> overlapsX p.
Proof.
  unfold hits, isColliding, overlapsX, birdRight, birdLeft, Qgtb.
  destruct (Qltb (x p) _) eqn:E1; [|discriminate].
  destruct (Qltb _ (x p + Constants.PIPE_WIDTH)) eqn:E2; [|discriminate].
  intros _. apply Qltb_true_iff in E1. apply Qltb_true_iff in E2.
  split; assumption.
Qed.


(** ** Pipes in a running game *)

Lemma spaced_length (l : list Pipe) :
  StronglySorted apart l ->
  Forall (fun p => onScreen p = true) l ->
  Forall (fun p => x p <= Viewport.CANVAS_WIDTH) l ->
  (length l <= 4)%nat.
Proof.
  destruct l as [|a [|b [|c [|d [|e l]]]]]; simpl; try lia.
  intros Hs Hon Hhi. exfalso.
  repeat match goal with
         | H : StronglySorted _ (_ :: _) |- _ => inversion H; clear H; subst
         | H : Forall _ (_ :: _) |- _ => inversion H; clear H; subst
         end.
  repeat match goal with
         | H : onScreen _ = true |- _ => apply onScreen_iff in H
         end.
  constants. lra.
Qed.

Lemma pipesOK_below_width (pipes : list Pipe) :
  pipesOK pipes -> Forall (fun p => x p <= Viewport.CANVAS_WIDTH) pipes.
Proof.
  intros (_ & Hs & older & p & -> & _ & Hhi).
  apply sorted_snoc in Hs. destruct Hs as [_ Hb].
  apply Forall_app. split; [|repeat constructor; exact Hhi].
  apply Forall_forall. intros q Hq. rewrite Forall_forall in Hb.
  specialize (Hb q Hq). constants. lra.
Qed.

(** X2.  In every reachable world the pipe array is never empty and holds
    at most four pipes; every pipe is at least partly on the canvas
    ([-50 < x <= 600]); pipes are in spawn order from left to right, any
    two more than 180 apart; and the pipe spawned last is still right of
    the spawn threshold ([420 <= x]). *)
Theorem pipes_spaced_and_bounded (w : World) :
  reachable w ->
  Forall (fun p => - (50) < x p /\ x p <= 600) (activePipes w)
  /\ StronglySorted (fun p q => x p + 180 < x q) (activePipes w)
  /\ (1 <= length (activePipes w) <= 4)%nat
  /\ (exists older p, activePipes w = older ++ [p] /\ 420 <= x p).
Proof.
  intro H. apply reachable_pipesOK in H.
  pose proof (pipesOK_below_width _ H) as Hhi.
  destruct H as (Hon & Hs & Hnew).
  split; [|split; [|split]].
  - apply Forall_forall. intros p Hp. rewrite Forall_forall in Hon, Hhi.
    specialize (Hon p Hp). specialize (Hhi p Hp).
    apply onScreen_iff in Hon. constants. lra.
  - clear Hon Hhi Hnew.
    induction Hs as [|a l Hs IH Hf]; constructor; [exact IH|].
    apply Forall_forall. intros q Hq. rewrite Forall_forall in Hf.
    specialize (Hf q Hq). constants. lra.
  - split; [|apply spaced_length; assumption].
    destruct Hnew as (older & p & -> & _). rewrite length_app. simpl. lia.
  - destruct Hnew as (older & p & E & Hlo & _). exists older, p.
    split; [exact E|]. constants. lra.
Qed.

Lemma pipes_spaced_and_bounded_witness :
  reachable lateStartWorld
  /\ (1 <= length (activePipes lateStartWorld) <= 4)%nat.
Proof.
  assert (H : reachable lateStartWorld)
    by (unfold lateStartWorld; apply reachable_run; apply reachable_init).
  split; [exact H|].
  exact (proj1 (proj2 (proj2 (pipes_spaced_and_bounded lateStartWorld H)))).
Defined.

(** X3.  In every reachable world at most one pipe overlaps the bird's
    horizontal span, so at any height at most one pipe collides with the
    bird: the order of the reducer's scan cannot change which pipe is hit. *)
Theorem one_pipe_at_a_time (w : World) (y : Q) :
  reachable w ->
  (length (filter (hits y) (activePipes w)) <= 1)%nat
  /\ (forall p q, In p (activePipes w) -> In q (activePipes w) ->
                  overlapsX p -> overlapsX q -> x p == x q).
Proof.
  intro H. apply reachable_pipesOK in H. destruct H as (_ & Hs & _). split.
  - apply sorted_at_most_one; [|exact Hs].
    intros p q Hpq Hp Hq.
    apply hits_overlaps in Hp. apply hits_overlaps in Hq.
    unfold overlapsX in *. constants. lra.
  - clear y. induction Hs as [|a l Hs IH Hf]; [intros p q []|].
    rewrite Forall_forall in Hf.
    intros p q [->|Hp] [->|Hq] Op Oq.
    + reflexivity.
    + specialize (Hf q Hq). unfold overlapsX in *. constants. lra.
    + specialize (Hf p Hp). unfold overlapsX in *. constants. lra.
    + apply IH; assumption.
Qed.

Lemma one_pipe_at_a_time_witness :
  reachable lateStartWorld
  /\ (length (filter (hits 0) (activePipes lateStartWorld)) <= 1)%nat.
Proof.
  assert (H : reachable lateStartWorld)
    by (unfold lateStartWorld; apply reachable_run; apply reachable_init).
  split; [exact H|].
  exact (proj1 (one_pipe_at_a_time lateStartWorld 0 H)).
Defined.

(** ** Score and lives along a run *)

Lemma pipesOK_one_to_score (pipes : list Pipe) :
  pipesOK pipes -> (length (filter scores pipes) <= 1)%nat.
Proof.
  intros (Hon & Hs & _).
  replace (filter scores pipes)
    with (filter (fun p => onScreen p && scores p) pipes).
  - apply sorted_at_most_one; [|exact Hs].
    intros p q Hpq Hp Hq.
    apply andb_true_iff in Hp. destruct Hp as [Hp _].
    apply andb_true_iff in Hq. destruct Hq as [_ Hq].
    apply onScreen_iff in Hp. unfold scores in Hq.
    apply andb_true_iff in Hq. destruct Hq as [_ Hq].
    apply Qltb_true_iff in Hq. constants. lra.
  - clear Hs. induction Hon as [|p l Hp _ IH]; [reflexivity|].
    simpl. rewrite Hp, IH. reflexivity.
Qed.

(** X4.  In every reachable world one flap or gravity event raises the
    score by at most one: the spacing leaves at most one obstacle behind
    the bird on the canvas, so no step counts two obstacles. *)
Theorem score_steps_by_one (w : World) (ev : Event) :
  reachable w -> ev <> Restart ->
  (score (state w) <= score (state (reducer w ev)) <= score (state w) + 1)%Z.
Proof.
  intros H Hev. apply reachable_pipesOK, pipesOK_one_to_score in H.
  destruct (gameEnd (state w)) eqn:Hend.
  - replace (reducer w ev) with w; [lia|].
    destruct ev; try congruence; unfold reducer; rewrite Hend; reflexivity.
  - destruct (reducer_cases w ev) as [Hb|[[Hb Hc]|[Hb Hc]]].
    + rewrite reducer_bounds by assumption. cbn [state score]. lia.
    + rewrite reducer_hit by assumption. cbn [state score].
      pose proof (scan_monotone (tentativeY w ev) (activePipes w)
                                (score (state w))).
      pose proof (scan_upper (tentativeY w ev) (activePipes w)
                             (score (state w))).
      lia.
    + rewrite reducer_clear by assumption. cbn [state score]. lia.
Qed.

Lemma score_steps_by_one_witness :
  reachable lateStartWorld /\ Gravity 2 <> Restart
  /\ (score (state lateStartWorld)
      <= score (state (reducer lateStartWorld (Gravity 2)))
      <= score (state lateStartWorld) + 1)%Z.
Proof.
  assert (H : reachable lateStartWorld)
    by (unfold lateStartWorld; apply reachable_run; apply reachable_init).
  assert (Hev : Gravity 2 <> Restart) by discriminate.
  split; [exact H|]. split; [exact Hev|].
  exact (score_steps_by_one lateStartWorld (Gravity 2) H Hev).
Defined.

Lemma frame_keeps_state (w : World) :
  state (advancePipes w) = state w
  /\ currentRun (advancePipes w) = currentRun w
  /\ ghosts (advancePipes w) = ghosts w
  /\ livesText (advancePipes w) = livesText w.
Proof.
  unfold advancePipes. destruct (livesText w <=? 0)%Z; [tauto|].
  destruct (rev _) as [|p ps]; [repeat split|].
  destruct (Qltb _ _); repeat split.
Qed.

Lemma reachable_hud (w : World) :
  reachable w -> livesText w = lives (state w).
Proof.
  induction 1 as [rnd|w a H IH]; [reflexivity|].
  destruct a as [ev| |i]; [reflexivity| |exact IH].
  destruct (frame_keeps_state w) as (Hs & _ & _ & Ht).
  simpl. rewrite Hs, Ht. exact IH.
Qed.

(** One event that is not a restart, on any world at all. *)
Lemma reducer_monotone (w : World) (ev : Event) :
  ev <> Restart ->
  (lives (state w) - 1 <= lives (state (reducer w ev)) <= lives (state w))%Z
  /\ (score (state w) <= score (state (reducer w ev)))%Z.
Proof.
  intro Hev. destruct (gameEnd (state w)) eqn:Hend.
  - replace (reducer w ev) with w; [lia|].
    destruct ev; try congruence; unfold reducer; rewrite Hend; reflexivity.
  - destruct (reducer_cases w ev) as [Hb|[[Hb Hc]|[Hb Hc]]].
    + rewrite reducer_bounds by assumption. cbn [state lives score]. lia.
    + rewrite reducer_hit by assumption. cbn [state lives score].
      pose proof (scan_monotone (tentativeY w ev) (activePipes w)
                                (score (state w))). lia.
    + rewrite reducer_clear by assumption. cbn [state lives score]. lia.
Qed.

(** X5.  Game over freezes the whole simulation.  In a reachable world
    whose game is ended the HUD shows no life, so the pipe interval
    returns at once: a pipe frame leaves the world as it is, and so does
    every flap or gravity event together with its rendering.  Only a
    restart, or the ghosts still playing, change anything. *)
Theorem game_over_freezes (w : World) :
  reachable w -> gameEnd (state w) = true ->
  step w Frame = w
  /\ (forall ev, ev <> Restart -> step w (Ev ev) = w).
Proof.
  intros H Hend.
  pose proof (reachable_hud w H) as Hhud.
  assert (Hc : consistent (state w)).
  { apply (reachable_ind_state consistent);
      [ | exact consistent_reducer | exact H].
    unfold consistent. simpl. repeat split; try lia; discriminate. }
  destruct Hc as (Hiff & _ & _). apply Hiff in Hend as Hle.
  split.
  - simpl. unfold advancePipes. rewrite Hhud.
    apply Z.leb_le in Hle. rewrite Hle. reflexivity.
  - intros ev Hev. simpl.
    replace (reducer w ev) with w.
    + unfold render, set_livesText. rewrite <- Hhud. destruct w; reflexivity.
    + destruct ev; try congruence; unfold reducer; rewrite Hend; reflexivity.
Qed.

Lemma game_over_freezes_witness :
  reachable endedWorld /\ gameEnd (state endedWorld) = true
  /\ step endedWorld Frame = endedWorld.
Proof.
  assert (H : reachable endedWorld)
    by (unfold endedWorld; apply reachable_run; apply reachable_init).
  assert (Hend : gameEnd (state endedWorld) = true)
    by (vm_compute; reflexivity).
  split; [exact H|]. split; [exact Hend|].
  exact (proj1 (game_over_freezes endedWorld H Hend)).
Defined.

(** X6.  Along any sequence of flap and gravity events, from any world,
    [lives] never goes up and [score] never goes down, and [n] events
    cost at most [n] lives. *)
Theorem lives_down_score_up (w : World) (evs : list Event) :
  Forall (fun ev => ev <> Restart) evs ->
  let w' := fold_left reducer evs w in
  (lives (state w) - Z.of_nat (length evs) <= lives (state w')
   <= lives (state w))%Z
  /\ (score (state w) <= score (state w'))%Z.
Proof.
  intro Hall. revert w.
  induction Hall as [|ev evs Hev _ IH]; intro w; [simpl; lia|].
  specialize (IH (reducer w ev)).
  pose proof (reducer_monotone w ev Hev) as Hm.
  cbn [fold_left length] in *. rewrite Nat2Z.inj_succ. lia.
Qed.

Lemma lives_down_score_up_witness :
  Forall (fun ev => ev <> Restart) [Gravity 2; Flap (-12); Gravity 2]
  /\ (lives (state (fold_left reducer [Gravity 2; Flap (-12); Gravity 2]
                              fallingWorld))
      <= lives (state fallingWorld))%Z.
Proof.
  assert (H : Forall (fun ev => ev <> Restart)
                     [Gravity 2; Flap (-12); Gravity 2])
    by (repeat constructor; discriminate).
  split; [exact H|].
  exact (proj2 (proj1 (lives_down_score_up fallingWorld _ H))).
Defined.

(** ** Falling *)

Lemma fall_keeps_speed (w : World) (a : Action) :
  fallOnly a -> 0 <= vy (state w) -> 0 <= vy (state (step w a)).
Proof.
  intros Ha Hv. destruct a as [[d|d|]| |i]; simpl in Ha; try contradiction.
  - change (state (step w (Ev (Gravity d))))
      with (state (reducer w (Gravity d))).
    destruct (gameEnd (state w)) eqn:Hend.
    + unfold reducer. rewrite Hend. exact Hv.
    + destruct (reducer_cases w (Gravity d)) as [Hb|[[Hb Hc]|[Hb Hc]]].
      * rewrite reducer_bounds by (assumption || discriminate).
        cbn [state vy nextVy]. lra.
      * rewrite reducer_hit by (assumption || discriminate).
        cbn [state vy]. lra.
      * rewrite reducer_clear by (assumption || discriminate).
        cbn [state vy nextVy]. lra.
  - rewrite state_step_other by discriminate. exact Hv.
  - rewrite state_step_other by discriminate. exact Hv.
Qed.

(** X7.  Without flaps the bird only goes down.  In a run from the start
    made of gravity events of non-negative delta (and pipe frames and
    ghost ticks), the velocity is never negative, and every further
    gravity event that costs no life leaves [birdY] where it was or
    lower on the screen. *)
Theorem falling_without_flap (rnd : nat -> Q) (acts : list Action) (d : Q) :
  Forall fallOnly acts -> 0 <= d ->
  let w := run (initialWorld rnd) acts in
  0 <= vy (state w)
  /\ (lives (state (reducer w (Gravity d))) = lives (state w) ->
      birdY (state w) <= birdY (state (reducer w (Gravity d)))).
Proof.
  intros Hall Hd w.
  assert (Hv : 0 <= vy (state w)).
  { subst w. unfold run.
    assert (Hgen : forall w0, 0 <= vy (state w0) ->
                     0 <= vy (state (fold_left step acts w0))).
    { induction Hall as [|a acts Ha _ IH]; intros w0 H0; [exact H0|].
      simpl. apply IH. apply fall_keeps_speed; assumption. }
    apply Hgen. simpl. lra. }
  split; [exact Hv|]. intro Hl.
  destruct (gameEnd (state w)) eqn:Hend.
  - unfold reducer. rewrite Hend. lra.
  - destruct (reducer_cases w (Gravity d)) as [Hb|[[Hb Hc]|[Hb Hc]]].
    + rewrite reducer_bounds in Hl by (assumption || discriminate).
      cbn [state lives] in Hl. lia.
    + rewrite reducer_hit in Hl by (assumption || discriminate).
      cbn [state lives] in Hl. lia.
    + rewrite reducer_clear by (assumption || discriminate).
      cbn [state birdY]. unfold tentativeY, nextVy. lra.
Qed.

Lemma falling_without_flap_witness :
  Forall fallOnly (ticks 5) /\ 0 <= 2
  /\ 0 <= vy (state (run (initialWorld half) (ticks 5))).
Proof.
  assert (H : Forall fallOnly (ticks 5))
    by (repeat constructor; vm_compute; discriminate).
  assert (Hd : 0 <= 2) by (vm_compute; discriminate).
  split; [exact H|]. split; [exact Hd|].
  exact (proj1 (falling_without_flap half (ticks 5) 2 H Hd)).
Defined.

(** ** Resets *)

(** X8.  The reducer never moves a pipe and calls [Math.random] only to
    replace the pipes after a lost life.  On a flap or gravity event of a
    live game: if a life is lost, the pipes are replaced by one new pipe
    built from the next random value, which is thereby used up; if not,
    no random value is used and every pipe keeps its position and its
    gap. *)
Theorem pipes_reset_only_on_loss (w : World) (ev : Event) :
  gameEnd (state w) = false -> ev <> Restart ->
  let w' := reducer w ev in
  (lives (state w') = (lives (state w) - 1)%Z ->
   activePipes w' = [newPipe (random w (draws w))]
   /\ draws w' = S (draws w))
  /\ (lives (state w') = lives (state w) ->
      draws w' = draws w
      /\ map x (activePipes w') = map x (activePipes w)
      /\ map gapY (activePipes w') = map gapY (activePipes w)
      /\ map pipeGapHeight (activePipes w')
         = map pipeGapHeight (activePipes w)).
Proof.
  intros Hend Hev w'. subst w'.
  assert (Hmark : forall ps,
            map x (map markPassed ps) = map x ps
            /\ map gapY (map markPassed ps) = map gapY ps
            /\ map pipeGapHeight (map markPassed ps) = map pipeGapHeight ps).
  { intro ps. rewrite !map_map. repeat split; apply map_ext; intro p;
      unfold markPassed; destruct (scores p); reflexivity. }
  destruct (reducer_cases w ev) as [Hb|[[Hb Hc]|[Hb Hc]]].
  - rewrite reducer_bounds by assumption.
    cbn [state lives activePipes draws]. split; intro; [tauto|lia].
  - rewrite reducer_hit by assumption.
    cbn [state lives activePipes draws]. split; intro; [tauto|lia].
  - rewrite reducer_clear by assumption.
    cbn [state lives activePipes draws]. split; intro; [lia|].
    split; [reflexivity|]. apply Hmark.
Qed.

Lemma pipes_reset_only_on_loss_witness :
  gameEnd (state fallingWorld) = false /\ Gravity 2 <> Restart
  /\ lives (state (reducer fallingWorld (Gravity 2)))
     = (lives (state fallingWorld) - 1)%Z
  /\ draws (reducer fallingWorld (Gravity 2)) = S (draws fallingWorld).
Proof.
  assert (Hend : gameEnd (state fallingWorld) = false)
    by (vm_compute; reflexivity).
  assert (Hev : Gravity 2 <> Restart) by discriminate.
  assert (Hl : lives (state (reducer fallingWorld (Gravity 2)))
               = (lives (state fallingWorld) - 1)%Z)
    by (vm_compute; reflexivity).
  split; [exact Hend|]. split; [exact Hev|]. split; [exact Hl|].
  exact (proj2 (proj1 (pipes_reset_only_on_loss fallingWorld (Gravity 2)
                         Hend Hev) Hl)).
Defined.

(** X9.  A collision with a pipe resets the bird completely.  On a flap
    or gravity event of a live game whose tentative position is inside
    the viewport and meets a pipe, the emitted state has [birdY = 200],
    [vy = 0] and one life less, its score includes the obstacles counted
    before the hit, the game is ended exactly when no life is left, and
    the step records no sample: the trail is the one left by the
    life-loss block. *)
Theorem pipe_hit_resets_bird (w : World) (ev : Event) :
  gameEnd (state w) = false -> ev <> Restart ->
  hitBounds w ev = false ->
  anyCollision (tentativeY w ev) (activePipes w) = true ->
  let w' := reducer w ev in
  birdY (state w') = 200 /\ vy (state w') = 0
  /\ lives (state w') = (lives (state w) - 1)%Z
  /\ (gameEnd (state w') = true <-> (lives (state w') <= 0)%Z)
  /\ (score (state w) <= score (state w'))%Z
  /\ currentRun w' = currentRun (ghostOnLoss (lives (state w)) w)
  /\ (length (currentRun w') <= length (currentRun w))%nat.
Proof.
  intros Hend Hev Hb Hc w'. subst w'.
  rewrite reducer_hit by assumption.
  cbn [state birdY vy lives gameEnd score currentRun].
  split; [reflexivity|]. split; [reflexivity|]. split; [reflexivity|].
  split; [|split; [|split]].
  - destruct (Z.leb_spec (lives (state w) - 1) 0);
      destruct (Z.leb_spec (lives (state w)) 0); split; intros;
      try lia; try reflexivity; try discriminate.
  - apply scan_monotone.
  - reflexivity.
  - unfold ghostOnLoss.
    destruct ((0 <? length (currentRun w))%nat && (1 <? lives (state w))%Z);
      simpl; lia.
Qed.

Lemma pipe_hit_resets_bird_witness :
  reachable pipeHitWorld
  /\ gameEnd (state pipeHitWorld) = false /\ Gravity 2 <> Restart
  /\ hitBounds pipeHitWorld (Gravity 2) = false
  /\ anyCollision (tentativeY pipeHitWorld (Gravity 2))
                  (activePipes pipeHitWorld) = true
  /\ birdY (state (reducer pipeHitWorld (Gravity 2))) = 200.
Proof.
  assert (H : reachable pipeHitWorld)
    by (unfold pipeHitWorld; apply reachable_run; apply reachable_init).
  assert (Hend : gameEnd (state pipeHitWorld) = false)
    by (vm_compute; reflexivity).
  assert (Hev : Gravity 2 <> Restart) by discriminate.
  assert (Hb : hitBounds pipeHitWorld (Gravity 2) = false)
    by (vm_compute; reflexivity).
  assert (Hc : anyCollision (tentativeY pipeHitWorld (Gravity 2))
                            (activePipes pipeHitWorld) = true)
    by (vm_compute; reflexivity).
  split; [exact H|]. split; [exact Hend|]. split; [exact Hev|].
  split; [exact Hb|]. split; [exact Hc|].
  exact (proj1 (pipe_hit_resets_bird pipeHitWorld (Gravity 2)
                  Hend Hev Hb Hc)).
Defined.

(** ** Ghosts *)

Lemma tickNth_last (l : list Ghost) (g : Ghost) :
  tickNth (length l) (l ++ [g])
  = l ++ match tickGhost g with
         | Some g' => [g']
         | None => []
         end.
Proof.
  induction l as [|a l IH]; simpl.
  - destruct (tickGhost g); reflexivity.
  - rewrite IH. reflexivity.
Qed.

Lemma ghosts_ghostTick (i : nat) (w : World) :
  ghosts (ghostTick i w) = tickNth i (ghosts w).
Proof. reflexivity. Qed.

(** X10.  A ghost spawned with a trail of [n] samples, on top of the
    ghosts already playing, shows one sample per firing of its interval:
    after [k <= n] firings it is still there with its cursor at [k] and
    the other ghosts are untouched; the firing after the last sample
    removes it and leaves exactly the ghosts that were there before. *)
Theorem ghost_plays_then_leaves (w : World) (trail : list Q) (k : nat) :
  (k <= length trail)%nat ->
  let mine := length (ghosts w) in
  ghosts (Nat.iter k (ghostTick mine) (spawnGhost trail w))
  = ghosts w ++ [mkGhost trail k]
  /\ ghosts (Nat.iter (S (length trail)) (ghostTick mine)
                      (spawnGhost trail w))
     = ghosts w.
Proof.
  intros Hk mine.
  assert (Hplay : forall j, (j <= length trail)%nat ->
            ghosts (Nat.iter j (ghostTick mine) (spawnGhost trail w))
            = ghosts w ++ [mkGhost trail j]).
  { induction j as [|j IH]; intro Hj; [reflexivity|].
    rewrite Nat.iter_succ, ghosts_ghostTick.
    rewrite IH by lia. unfold mine. rewrite tickNth_last.
    unfold tickGhost. cbn [runPositions index].
    destruct (Nat.leb_spec (length trail) j); [lia|reflexivity]. }
  split; [apply Hplay; exact Hk|].
  rewrite Nat.iter_succ, ghosts_ghostTick.
  rewrite Hplay by lia. unfold mine. rewrite tickNth_last.
  unfold tickGhost. cbn [runPositions index].
  rewrite Nat.leb_refl. apply app_nil_r.
Qed.

Lemma ghost_plays_then_leaves_witness :
  (2 <= length [202; 206; 212])%nat
  /\ ghosts (Nat.iter 2 (ghostTick (length (ghosts endedWorld)))
                      (spawnGhost [202; 206; 212] endedWorld))
     = ghosts endedWorld ++ [mkGhost [202; 206; 212] 2].
Proof.
  assert (H : (2 <= length [202; 206; 212])%nat) by (simpl; lia).
  split; [exact H|].
  exact (proj1 (ghost_plays_then_leaves endedWorld [202; 206; 212] 2 H)).
Defined.

Lemma ghostOnLoss_ghosts_comm (l : Z) (gs : list Ghost) (w : World) :
  exists gs',
    ghostOnLoss l (set_ghosts gs w) = set_ghosts gs' (ghostOnLoss l w).
Proof.
  unfold ghostOnLoss. cbn [currentRun set_ghosts].
  destruct ((0 <? length (currentRun w))%nat && (1 <? l)%Z);
    eexists; reflexivity.
Qed.

Lemma reducer_ghosts_comm (gs : list Ghost) (w : World) (ev : Event) :
  exists gs', reducer (set_ghosts gs w) ev = set_ghosts gs' (reducer w ev).
Proof.
  destruct ev as [v|v|].
  3: { exists gs. unfold reducer. rewrite !resetPipes_spec. reflexivity. }
  all: destruct (gameEnd (state w)) eqn:Hend;
    [ exists gs; unfold reducer; cbn [state set_ghosts]; rewrite Hend;
      reflexivity | ].
  all: match goal with |- context [reducer (set_ghosts ?g0 ?w0) ?e] =>
         destruct (ghostOnLoss_ghosts_comm (lives (state w0)) g0 w0)
           as [gs1 Hg];
         destruct (reducer_cases w0 e) as [Hb|[[Hb Hc]|[Hb Hc]]] end.
  all: try (exists gs1;
            rewrite (reducer_bounds w) by (assumption || discriminate);
            rewrite (reducer_bounds (set_ghosts gs w))
              by (assumption || discriminate);
            cbn [state set_ghosts livesText random draws] in *;
            rewrite Hg; reflexivity).
  all: try (exists gs1;
            rewrite (reducer_hit w) by (assumption || discriminate);
            rewrite (reducer_hit (set_ghosts gs w))
              by (assumption || discriminate);
            cbn [state set_ghosts livesText random draws activePipes] in *;
            rewrite Hg; reflexivity).
  all: exists gs;
       rewrite (reducer_clear w) by (assumption || discriminate);
       rewrite (reducer_clear (set_ghosts gs w))
         by (assumption || discriminate);
       reflexivity.
Qed.

Lemma advancePipes_ghosts_comm (gs : list Ghost) (w : World) :
  advancePipes (set_ghosts gs w) = set_ghosts gs (advancePipes w).
Proof.
  unfold advancePipes. cbn [livesText activePipes set_ghosts].
  destruct (livesText w <=? 0)%Z; [reflexivity|].
  destruct (rev _) as [|p l]; [reflexivity|].
  destruct (Qltb _ _); reflexivity.
Qed.

Lemma run_cons (w : World) (a : Action) (acts : list Action) :
  run w (a :: acts) = run (step w a) acts.
Proof. reflexivity. Qed.

Lemma run_without_ghost_ticks (acts : list Action) :
  forall w gs, exists gs',
    run (set_ghosts gs w) (dropGhostTicks acts) = set_ghosts gs' (run w acts).
Proof.
  induction acts as [|a acts IH]; intros w gs.
  - exists gs. reflexivity.
  - rewrite (run_cons w). destruct a as [ev| |i].
    + destruct (reducer_ghosts_comm gs w ev) as [gs1 Hr].
      destruct (IH (step w (Ev ev)) gs1) as [gs' Hrun].
      exists gs'. rewrite <- Hrun.
      change (dropGhostTicks (Ev ev :: acts))
        with (Ev ev :: dropGhostTicks acts).
      rewrite run_cons. cbn [step]. rewrite Hr. reflexivity.
    + destruct (IH (step w Frame) gs) as [gs' Hrun].
      exists gs'. rewrite <- Hrun.
      change (dropGhostTicks (Frame :: acts))
        with (Frame :: dropGhostTicks acts).
      rewrite run_cons. cbn [step].
      rewrite advancePipes_ghosts_comm. reflexivity.
    + destruct (IH (step w (GhostTick i)) gs) as [gs' Hrun].
      exists gs'. rewrite <- Hrun. reflexivity.
Qed.

(** X11.  Ghost playback is purely visual.  Removing every firing of a
    ghost interval from a sequence of events, pipe frames and ghost ticks
    changes nothing but the ghosts: the game state, the pipes, the run
    trail, the HUD and the use of [Math.random] come out the same. *)
Theorem ghosts_do_not_interfere (w : World) (acts : list Action) :
  let w1 := run w acts in
  let w2 := run w (dropGhostTicks acts) in
  state w2 = state w1
  /\ activePipes w2 = activePipes w1
  /\ currentRun w2 = currentRun w1
  /\ livesText w2 = livesText w1
  /\ draws w2 = draws w1.
Proof.
  intros w1 w2. subst w1 w2.
  destruct (run_without_ghost_ticks acts w (ghosts w)) as [gs' H].
  replace (set_ghosts (ghosts w) w) with w in H by (destruct w; reflexivity).
  rewrite H. repeat split.
Qed.

(** ** Trails *)


(** ** Trails *)

Lemma inRange_200 : inRange 200.
Proof. split; unfold Qle; simpl; lia. Qed.

Lemma trailsOK_ghostOnLoss (l : Z) (w : World) :
  trailsOK w -> trailsOK (ghostOnLoss l w).
Proof.
  intros [Hg Hr]. destruct (spawns l w) eqn:E.
  - destruct (ghostOnLoss_spawn l w E) as [Eg Er].
    apply spawns_iff in E. destruct E as [Hne _].
    split; [rewrite Eg | rewrite Er; constructor].
    apply Forall_app. split; [exact Hg|]. repeat constructor; cbn.
    + exact Hne.
    + lia.
    + exact Hr.
  - rewrite ghostOnLoss_skip by exact E. split; assumption.
Qed.

Lemma trailsOK_reducer (w : World) (ev : Event) :
  trailsOK w -> trailsOK (reducer w ev).
Proof.
  intro H. destruct ev as [v|v|].
  3: { destruct H as [Hg _]. unfold reducer. rewrite resetPipes_spec.
       split; [exact Hg | constructor]. }
  all: destruct (gameEnd (state w)) eqn:Hend;
    [ unfold reducer; rewrite Hend; exact H | ].
  all: match goal with |- trailsOK (reducer ?w0 ?e) =>
         pose proof (trailsOK_ghostOnLoss (lives (state w0)) w0 H)
           as [Hg' Hr'];
         destruct (reducer_cases w0 e) as [Hb|[[Hb Hc]|[Hb Hc]]] end.
  all: try (rewrite reducer_bounds by (assumption || discriminate);
            split; cbn [ghosts currentRun]; [exact Hg'|];
            apply Forall_app; split;
            [exact Hr' | repeat constructor; apply inRange_200]).
  all: try (rewrite reducer_hit by (assumption || discriminate);
            split; cbn [ghosts currentRun]; assumption).
  all: rewrite reducer_clear by (assumption || discriminate);
       destruct H as [Hg Hr]; split; cbn [ghosts currentRun];
       [exact Hg|]; apply Forall_app; split; [exact Hr|];
       repeat constructor; apply outOfBounds_false; exact Hb.
Qed.

Lemma ghostOK_tickNth (i : nat) (gs : list Ghost) :
  Forall ghostOK gs -> Forall ghostOK (tickNth i gs).
Proof.
  intro H. revert i. induction H as [|g gs Hg Hgs IH]; intro i;
    [destruct i; constructor|].
  destruct i as [|i]; simpl.
  - unfold tickGhost.
    destruct (Nat.leb_spec (length (runPositions g)) (index g));
      [exact Hgs|].
    constructor; [|exact Hgs]. destruct Hg as (Hne & _ & Hin).
    repeat split; cbn; [exact Hne | lia | exact Hin].
  - constructor; [exact Hg | apply IH].
Qed.

(** X12.  In every reachable world every live ghost was given a trail
    with at least one sample, so the first position [runPositions[0]]
    that [spawnGhost] reads exists; its cursor never runs past the end of
    its trail; and every sample, of the ghosts and of the run being
    recorded, is a height at which the bird is inside the viewport. *)
Theorem trails_are_well_formed (w : World) :
  reachable w ->
  Forall (fun g => runPositions g <> []
                   /\ (index g <= length (runPositions g))%nat
                   /\ Forall inRange (runPositions g)) (ghosts w)
  /\ Forall inRange (currentRun w).
Proof.
  intro H. change (trailsOK w).
  induction H as [rnd|w a H IH].
  - split; constructor.
  - destruct a as [ev| |i].
    + exact (trailsOK_reducer w ev IH).
    + destruct (frame_keeps_state w) as (_ & Hr & Hg & _).
      unfold trailsOK. cbn [step]. rewrite Hr, Hg. exact IH.
    + destruct IH as [Hg Hr]. split; [|exact Hr].
      apply ghostOK_tickNth. exact Hg.
Qed.

Lemma trails_are_well_formed_witness :
  reachable endedWorld /\ Forall inRange (currentRun endedWorld).
Proof.
  assert (H : reachable endedWorld)
    by (unfold endedWorld; apply reachable_run; apply reachable_init).
  split; [exact H|].
  exact (proj2 (trails_are_well_formed endedWorld H)).
Defined.

(** ** The time a reset buys *)

Lemma inject_nat_nonneg (n : nat) : 0 <= inject_Z (Z.of_nat n).
Proof.
  change 0 with (inject_Z 0). rewrite <- Zle_Qle. lia.
Qed.

Lemma inject_nat_succ (n : nat) :
  inject_Z (Z.of_nat (S n)) == inject_Z (Z.of_nat n) + 1.
Proof.
  rewrite Nat2Z.inj_succ. unfold Z.succ. rewrite inject_Z_plus. reflexivity.
Qed.

(** No pipe has come further left than [n] frames allow. *)
Lemma farther_step (n : nat) (w : World) (a : Action) :
  Forall (fun p => Viewport.CANVAS_WIDTH
                   - inject_Z (Z.of_nat n) * PIPE_SPEED <= x p)
         (activePipes w) ->
  Forall (fun p => Viewport.CANVAS_WIDTH
                   - inject_Z (Z.of_nat (n + length (filter isFrame [a])))
                     * PIPE_SPEED <= x p)
         (activePipes (step w a)).
Proof.
  intro H. pose proof (inject_nat_nonneg n) as Hn.
  destruct a as [ev| |i]; cbn [filter isFrame length].
  - rewrite Nat.add_0_r.
    change (activePipes (step w (Ev ev))) with (activePipes (reducer w ev)).
    destruct (reducer_pipes w ev) as [E|[E|E]]; rewrite E.
    + exact H.
    + apply Forall_forall. intros q Hq. apply in_map_iff in Hq.
      destruct Hq as (b & <- & Hb). rewrite x_markPassed.
      rewrite Forall_forall in H. exact (H b Hb).
    + repeat constructor. constants. nra.
  - replace (n + 1)%nat with (S n) by lia.
    pose proof (inject_nat_succ n) as Hs.
    assert (Hold : forall q, In q (activePipes w) ->
              Viewport.CANVAS_WIDTH
              - inject_Z (Z.of_nat (S n)) * PIPE_SPEED <= x q).
    { intros q Hq. rewrite Forall_forall in H. specialize (H q Hq).
      rewrite Hs. constants. lra. }
    assert (Hkept : Forall (fun p => Viewport.CANVAS_WIDTH
                       - inject_Z (Z.of_nat (S n)) * PIPE_SPEED <= x p)
                      (filter onScreen (map moveLeft (activePipes w)))).
    { apply Forall_forall. intros q Hq. apply filter_In in Hq.
      destruct Hq as [Hq _]. apply in_map_iff in Hq.
      destruct Hq as (b & <- & Hb). rewrite Forall_forall in H.
      specialize (H b Hb). rewrite Hs. constants. lra. }
    cbn [step]. destruct (advancePipes_pipes w) as [E|[E|E]]; rewrite E.
    + apply Forall_forall. exact Hold.
    + exact Hkept.
    + apply Forall_app. split; [exact Hkept|]. repeat constructor.
      rewrite Hs. constants. nra.
  - rewrite Nat.add_0_r. exact H.
Qed.

Lemma farther_run (acts : list Action) :
  forall (n : nat) (w : World),
    Forall (fun p => Viewport.CANVAS_WIDTH
                     - inject_Z (Z.of_nat n) * PIPE_SPEED <= x p)
           (activePipes w) ->
    Forall (fun p => Viewport.CANVAS_WIDTH
                     - inject_Z (Z.of_nat (n + frameCount acts))
                       * PIPE_SPEED <= x p)
           (activePipes (run w acts)).
Proof.
  unfold frameCount.
  induction acts as [|a acts IH]; intros n w H.
  - simpl. rewrite Nat.add_0_r. exact H.
  - rewrite run_cons.
    replace (n + length (filter isFrame (a :: acts)))%nat
      with ((n + length (filter isFrame [a]))
            + length (filter isFrame acts))%nat
      by (simpl; destruct (isFrame a); simpl; lia).
    apply IH. apply farther_step. exact H.
Qed.

(** X13.  A reset buys time.  When every pipe is at the right edge, as
    after the start, a lost life or a restart, then whatever events and
    ghost ticks happen, as long as no more than 151 pipe frames have
    fired no pipe overlaps the bird's span: at no height does any pipe
    collide, and no obstacle can be counted.  The bound is the best one:
    152 frames after the start the first pipe is over a bird at the top
    of the screen. *)
Theorem no_pipe_hit_soon_after_reset (w : World) (acts : list Action) :
  Forall (fun p => Viewport.CANVAS_WIDTH <= x p) (activePipes w) ->
  (frameCount acts <= 151)%nat ->
  (forall y,
     anyCollision y (activePipes (run w acts)) = false
     /\ filter scores (activePipes (run w acts)) = [])
  /\ anyCollision 0 (activePipes (run (initialWorld half) (repeat Frame 152)))
     = true.
Proof.
  intros H0 Hn. split; [|vm_compute; reflexivity]. intro y.
  assert (Hfar : Forall (fun p => birdRight <= x p)
                        (activePipes (run w acts))).
  { pose proof (farther_run acts 0 w) as Hf. cbn [Nat.add] in Hf.
    assert (Hstart : Forall (fun p => Viewport.CANVAS_WIDTH
                               - inject_Z (Z.of_nat 0) * PIPE_SPEED <= x p)
                            (activePipes w)).
    { apply Forall_forall. intros q Hq. rewrite Forall_forall in H0.
      specialize (H0 q Hq). change (inject_Z (Z.of_nat 0)) with 0. lra. }
    specialize (Hf Hstart).
    apply Forall_forall. intros q Hq. rewrite Forall_forall in Hf.
    specialize (Hf q Hq).
    assert (Hle : inject_Z (Z.of_nat (frameCount acts)) <= 151).
    { change 151 with (inject_Z 151). rewrite <- Zle_Qle. lia. }
    constants. lra. }
  split.
  - unfold anyCollision. apply not_true_is_false. intro Hex.
    apply existsb_exists in Hex. destruct Hex as (q & Hq & Hhit).
    rewrite Forall_forall in Hfar. specialize (Hfar q Hq).
    change (hits y q = true) in Hhit. apply hits_overlaps in Hhit.
    destruct Hhit as [Hlt _]. lra.
  - destruct (filter scores (activePipes (run w acts))) as [|q l] eqn:E;
      [reflexivity|]. exfalso.
    assert (Hq : In q (filter scores (activePipes (run w acts))))
      by (rewrite E; left; reflexivity).
    apply filter_In in Hq. destruct Hq as [Hq Hs].
    rewrite Forall_forall in Hfar. specialize (Hfar q Hq).
    unfold scores in Hs. apply andb_true_iff in Hs. destruct Hs as [_ Hs].
    apply Qltb_true_iff in Hs. constants. lra.
Qed.

Lemma no_pipe_hit_soon_after_reset_witness :
  Forall (fun p => Viewport.CANVAS_WIDTH <= x p)
         (activePipes (reducer fallingWorld (Gravity 2)))
  /\ (frameCount (ticks 23) <= 151)%nat
  /\ anyCollision 200
       (activePipes (run (reducer fallingWorld (Gravity 2)) (ticks 23)))
     = false.
Proof.
  assert (H0 : Forall (fun p => Viewport.CANVAS_WIDTH <= x p)
                      (activePipes (reducer fallingWorld (Gravity 2))))
    by (vm_compute; repeat constructor; discriminate).
  assert (Hn : (frameCount (ticks 23) <= 151)%nat) by (vm_compute; lia).
  split; [exact H0|]. split; [exact Hn|].
  exact (proj1 (proj1 (no_pipe_hit_soon_after_reset _ (ticks 23) H0 Hn)
                      200)).
Defined.

(** ** The gap of a new pipe *)

Lemma gapY_moveLeft (p : Pipe) (k : nat) :
  gapY (Nat.iter k moveLeft p) = gapY p
  /\ pipeGapHeight (Nat.iter k moveLeft p) = pipeGapHeight p.
Proof.
  induction k as [|k [IH1 IH2]]; [split; reflexivity|].
  rewrite Nat.iter_succ. cbn [moveLeft gapY pipeGapHeight]. tauto.
Qed.

Lemma inside_gap_passes (y : Q) (p : Pipe) :
  gapY p <= y -> y + Birb.HEIGHT <= gapY p + pipeGapHeight p ->
  isColliding y p = None.
Proof.
  intros Hlo Hhi. unfold isColliding, Qgtb.
  apply Qltb_false_iff in Hlo. apply Qltb_false_iff in Hhi.
  rewrite Hlo, Hhi. destruct (negb _); reflexivity.
Qed.

(** X14.  Every pipe can be passed.  [Math.random] answers in [[0, 1)];
    the gap of the pipe built from such an answer starts between 20 and
    280 and ends above 380, so it lies inside the viewport with a margin
    of 20 on both sides; and a bird whose top edge is between the gap's
    start and 70 below it is inside the viewport and does not collide
    with the pipe, wherever the pipe has moved to. *)
Theorem new_pipe_is_passable (r : Q) :
  0 <= r -> r < 1 ->
  let p := newPipe r in
  20 <= gapY p /\ gapY p < 280
  /\ gapY p + pipeGapHeight p < Viewport.CANVAS_HEIGHT - 20
  /\ (forall y k,
        gapY p <= y -> y <= gapY p + 70 ->
        inRange y /\ isColliding y (Nat.iter k moveLeft p) = None).
Proof.
  intros H0 H1 p.
  assert (Hlo : 20 <= gapY p) by (subst p; constants; nra).
  assert (Hhi : gapY p < 280) by (subst p; constants; nra).
  assert (Hh : pipeGapHeight p == 100) by (subst p; constants; reflexivity).
  split; [exact Hlo|]. split; [exact Hhi|].
  split; [unfold Viewport.CANVAS_HEIGHT; lra|].
  intros y k Hy1 Hy2. split.
  - unfold inRange, Birb.HEIGHT, Viewport.CANVAS_HEIGHT. lra.
  - destruct (gapY_moveLeft p k) as [Eg Eh].
    apply inside_gap_passes; rewrite ?Eg, ?Eh; unfold Birb.HEIGHT; lra.
Qed.

Lemma new_pipe_is_passable_witness :
  0 <= 1 # 2 /\ 1 # 2 < 1 /\ 20 <= gapY (newPipe (1 # 2)).
Proof.
  assert (H0 : 0 <= 1 # 2) by (vm_compute; discriminate).
  assert (H1 : 1 # 2 < 1) by (vm_compute; reflexivity).
  split; [exact H0|]. split; [exact H1|].
  exact (proj1 (new_pipe_is_passable (1 # 2) H0 H1)).
Defined.

(** ** The GAME OVER text *)

(** X15.  However many snapshots [render] has drawn, the canvas holds at
    most one GAME OVER text: after any sequence of snapshots the text is
    there, once, exactly when the last snapshot was an ended game, so a
    restart takes it away and a game that stays ended does not stack a
    second one. *)
Theorem banner_follows_game_end (before : list State) (s : State) :
  let b := fold_left renderBanner (before ++ [s]) (mkBanner false 0) in
  gameOver b = gameEnd s
  /\ shown b = if gameEnd s then 1%nat else 0%nat.
Proof.
  intro b. subst b. rewrite fold_left_app. cbn [fold_left].
  assert (Hinv : forall ss b0,
            shown b0 = (if gameOver b0 then 1%nat else 0%nat) ->
            shown (fold_left renderBanner ss b0)
            = if gameOver (fold_left renderBanner ss b0)
              then 1%nat else 0%nat).
  { induction ss as [|s0 ss IH]; intros b0 H0; [exact H0|].
    simpl. apply IH. unfold renderBanner.
    destruct (gameEnd s0), (gameOver b0) eqn:E; cbn;
      rewrite ?E, ?H0; reflexivity. }
  specialize (Hinv before (mkBanner false 0) eq_refl).
  set (b0 := fold_left renderBanner before (mkBanner false 0)) in *.
  unfold renderBanner.
  destruct (gameEnd s), (gameOver b0) eqn:E; cbn; rewrite ?E, ?Hinv;
    split; reflexivity.
Qed.

(** ** The ended world *)

(** X16.  A reachable world whose game is ended has exactly zero lives,
    shows zero lives, and holds exactly one pipe, a new one at the right
    edge that no frame has moved: the loss that ended the game reset the
    pipes and nothing has touched them since. *)
Theorem game_over_shape (w : World) :
  reachable w -> gameEnd (state w) = true ->
  lives (state w) = 0%Z /\ livesText w = 0%Z
  /\ exists r, activePipes w = [newPipe r].
Proof.
  intros H Hend.
  assert (Hcons : forall w0, reachable w0 -> consistent (state w0)).
  { intros w0 H0. apply (reachable_ind_state consistent);
      [ | exact consistent_reducer | exact H0].
    unfold consistent. simpl. repeat split; try lia; discriminate. }
  pose proof (reachable_hud w H) as Hhud.
  destruct (Hcons w H) as (Hiff & Hge & _).
  apply Hiff in Hend as Hle.
  split; [lia|]. split; [lia|].
  clear Hhud Hiff Hge Hle.
  induction H as [rnd|w a H IH]; [discriminate|].
  destruct a as [ev| |i].
  - change (activePipes (step w (Ev ev))) with (activePipes (reducer w ev)).
    change (state (step w (Ev ev))) with (state (reducer w ev)) in Hend.
    destruct ev as [v|v|]; [| |discriminate].
    all: destruct (gameEnd (state w)) eqn:Hprev;
      [ unfold reducer in *; rewrite Hprev in *; apply IH; reflexivity | ].
    all: destruct (Hcons w H) as (Hiff & _ & _).
    all: match goal with |- context [reducer ?w0 ?e] =>
           destruct (reducer_cases w0 e) as [Hb|[[Hb Hc]|[Hb Hc]]] end.
    all: try (rewrite reducer_bounds by (assumption || discriminate);
              eexists; reflexivity).
    all: try (rewrite reducer_hit by (assumption || discriminate);
              eexists; reflexivity).
    all: rewrite reducer_clear in Hend by (assumption || discriminate);
         cbn [state gameEnd] in Hend; apply Z.leb_le in Hend;
         apply Hiff in Hend; congruence.
  - destruct (frame_keeps_state w) as (Hs & _).
    cbn [step] in *. rewrite Hs in Hend.
    specialize (IH Hend).
    pose proof (reachable_hud w H) as Hhud.
    destruct (Hcons w H) as (Hiff & _ & _). apply Hiff in Hend.
    unfold advancePipes. rewrite Hhud. apply Z.leb_le in Hend.
    rewrite Hend. exact IH.
  - exact (IH Hend).
Qed.

Lemma game_over_shape_witness :
  reachable endedWorld /\ gameEnd (state endedWorld) = true
  /\ lives (state endedWorld) = 0%Z.
Proof.
  assert (H : reachable endedWorld)
    by (unfold endedWorld; apply reachable_run; apply reachable_init).
  assert (Hend : gameEnd (state endedWorld) = true)
    by (vm_compute; reflexivity).
  split; [exact H|]. split; [exact Hend|].
  exact (proj1 (game_over_shape endedWorld H Hend)).
Defined.

(** ** The first revision *)

Lemma erase_collision (y : Q) (p : Pipe) :
  Rev1.isColliding y (erasePipe p) = isColliding y p.
Proof. reflexivity. Qed.

Lemma erase_scan (y : Q) (pipes : list Pipe) :
  Rev1.scanPipes y (map erasePipe pipes) = anyCollision y pipes.
Proof.
  induction pipes as [|p ps IH]; [reflexivity|].
  simpl. rewrite erase_collision, IH.
  destruct (isColliding y p); reflexivity.
Qed.

Lemma erase_marked (pipes : list Pipe) :
  map erasePipe (map markPassed pipes) = map erasePipe pipes.
Proof.
  rewrite map_map. apply map_ext. intro p.
  unfold markPassed. destruct (scores p); reflexivity.
Qed.

Lemma erase_resetPipes (w : World) :
  Rev1.resetPipes (erase w)
  = Rev1.mkWorld (eraseState (state w)) [Rev1.newPipe (random w (draws w))]
                 (random w) (S (draws w)).
Proof.
  unfold Rev1.resetPipes, erase. cbn [Rev1.activePipes].
  rewrite length_map. destruct (activePipes w); reflexivity.
Qed.

(** X17.  Score, restart and ghosts were added without changing the
    flight.  On every flap or gravity event the last revision of the
    reducer and the first one agree on everything the first one knows:
    the end flag, the position, the velocity and the lives that are
    emitted, the position and gap of every pipe, and the use of
    [Math.random]. *)
Theorem first_revision_agrees (w : World) (ev : Event) :
  ev <> Restart ->
  erase (reducer w ev) = Rev1.reducer (erase w) ev.
Proof.
  intro Hev. destruct (gameEnd (state w)) eqn:Hend.
  - replace (reducer w ev) with w
      by (destruct ev; try congruence; unfold reducer; rewrite Hend;
          reflexivity).
    unfold Rev1.reducer. cbn [erase Rev1.state eraseState Rev1.gameEnd].
    rewrite Hend. reflexivity.
  - assert (Hvy : match ev with
                  | Flap v => v
                  | Gravity v => vy (state w) + v
                  | Restart => vy (state w)
                  end = nextVy (state w) ev) by reflexivity.
    unfold Rev1.reducer.
    cbn [erase Rev1.state eraseState Rev1.gameEnd Rev1.vy Rev1.birdY
         Rev1.lives].
    rewrite Hend, Hvy.
    change (outOfBounds (birdY (state w) + nextVy (state w) ev))
      with (hitBounds w ev).
    change (birdY (state w) + nextVy (state w) ev) with (tentativeY w ev).
    fold (erase w).
    destruct (reducer_cases w ev) as [Hb|[[Hb Hc]|[Hb Hc]]]; rewrite Hb.
    + rewrite reducer_bounds by assumption.
      rewrite erase_resetPipes. cbn [Rev1.activePipes Rev1.scanPipes].
      change (Rev1.isColliding 200 (Rev1.newPipe (random w (draws w))))
        with (isColliding 200 (newPipe (random w (draws w)))).
      rewrite newPipe_no_collision.
      unfold erase, eraseState. cbn.
      destruct (lives (state w) - 1 <=? 0)%Z; reflexivity.
    + rewrite reducer_hit by assumption.
      cbn [erase Rev1.activePipes]. rewrite erase_scan, Hc.
      fold (erase w). rewrite erase_resetPipes.
      unfold erase, eraseState. cbn. reflexivity.
    + rewrite reducer_clear by assumption.
      cbn [erase Rev1.activePipes]. rewrite erase_scan, Hc.
      unfold erase, eraseState. cbn. rewrite erase_marked. reflexivity.
Qed.

Lemma first_revision_agrees_witness :
  Gravity 2 <> Restart
  /\ erase (reducer pipeHitWorld (Gravity 2))
     = Rev1.reducer (erase pipeHitWorld) (Gravity 2).
Proof.
  assert (Hev : Gravity 2 <> Restart) by discriminate.
  split; [exact Hev|].
  exact (first_revision_agrees pipeHitWorld (Gravity 2) Hev).
Defined.

(** ** One pipe frame of a live game *)

Lemma filter_all {A : Type} (f : A -> bool) (l : list A) :
  Forall (fun a => f a = true) l -> filter f l = l.
Proof.
  induction 1 as [|a l Ha _ IH]; [reflexivity|].
  simpl. rewrite Ha, IH. reflexivity.
Qed.

(** X18.  In a reachable world whose game is not ended, one pipe frame
    moves every pipe left by exactly 2.5 and keeps the order; it retires
    at most one pipe, the oldest, and only when the move takes it wholly
    off the canvas; and it spawns at most one pipe, built from the next
    random value, behind the others. *)
Theorem frame_moves_every_pipe (w : World) :
  reachable w -> gameEnd (state w) = false ->
  exists gone rest fresh,
    activePipes w = gone ++ rest
    /\ activePipes (step w Frame) = map moveLeft rest ++ fresh
    /\ (length gone <= 1)%nat
    /\ Forall (fun p => x p - PIPE_SPEED + Constants.PIPE_WIDTH <= 0) gone
    /\ (fresh = [] \/ fresh = [newPipe (random w (draws w))]).
Proof.
  intros H Hend.
  pose proof (reachable_hud w H) as Hhud.
  assert (Hc : consistent (state w)).
  { apply (reachable_ind_state consistent);
      [ | exact consistent_reducer | exact H].
    unfold consistent. simpl. repeat split; try lia; discriminate. }
  destruct Hc as (Hiff & Hge & _).
  assert (Hlive : (livesText w <=? 0)%Z = false).
  { rewrite Hhud. apply Z.leb_gt.
    destruct (Z_le_gt_dec (lives (state w)) 0) as [Hle|Hgt]; [|lia].
    apply Hiff in Hle. congruence. }
  apply reachable_pipesOK in H. destruct H as (Hon & Hs & Hnew).
  cbn [step]. unfold advancePipes. rewrite Hlive.
  destruct (activePipes w) as [|a l] eqn:E.
  { destruct Hnew as (older & p & Hnil & _). destruct older; discriminate. }
  inversion Hs as [|? ? Hsl Hal]; subst.
  inversion Hon as [|? ? Hona Honl]; subst.
  apply onScreen_iff in Hona.
  assert (Htail : filter onScreen (map moveLeft l) = map moveLeft l).
  { apply filter_all. apply Forall_forall. intros q Hq.
    apply in_map_iff in Hq. destruct Hq as (b & <- & Hb).
    rewrite Forall_forall in Hal. specialize (Hal b Hb).
    apply onScreen_iff. constants. lra. }
  cbn [map filter]. rewrite Htail.
  destruct (onScreen (moveLeft a)) eqn:Ea.
  - exists [], (a :: l).
    destruct (rev (moveLeft a :: map moveLeft l)) as [|p r0];
      [|destruct (Qltb (x p) SPAWN_THRESHOLD)].
    + exists [newPipe (random w (draws w))].
      split; [reflexivity|]. split; [reflexivity|]. split; [simpl; lia|].
      split; [constructor|]. right; reflexivity.
    + exists [newPipe (random w (draws w))].
      split; [reflexivity|]. split; [reflexivity|]. split; [simpl; lia|].
      split; [constructor|]. right; reflexivity.
    + exists [].
      split; [reflexivity|]. split; [symmetry; apply app_nil_r|].
      split; [simpl; lia|]. split; [constructor|]. left; reflexivity.
  - assert (Hoff : x a - PIPE_SPEED + Constants.PIPE_WIDTH <= 0).
    { unfold onScreen, Qgtb in Ea. apply Qltb_false_iff in Ea.
      exact Ea. }
    exists [a], l.
    destruct (rev (map moveLeft l)) as [|p r0];
      [|destruct (Qltb (x p) SPAWN_THRESHOLD)].
    + exists [newPipe (random w (draws w))].
      split; [reflexivity|]. split; [reflexivity|]. split; [simpl; lia|].
      split; [repeat constructor; exact Hoff|]. right; reflexivity.
    + exists [newPipe (random w (draws w))].
      split; [reflexivity|]. split; [reflexivity|]. split; [simpl; lia|].
      split; [repeat constructor; exact Hoff|]. right; reflexivity.
    + exists [].
      split; [reflexivity|]. split; [symmetry; apply app_nil_r|].
      split; [simpl; lia|].
      split; [repeat constructor; exact Hoff|]. left; reflexivity.
Qed.

Lemma frame_moves_every_pipe_witness :
  reachable lateStartWorld /\ gameEnd (state lateStartWorld) = false
  /\ exists gone rest fresh,
       activePipes lateStartWorld = gone ++ rest
       /\ activePipes (step lateStartWorld Frame) = map moveLeft rest ++ fresh
       /\ (length gone <= 1)%nat
       /\ Forall (fun p => x p - PIPE_SPEED + Constants.PIPE_WIDTH <= 0) gone
       /\ (fresh = []
           \/ fresh = [newPipe (random lateStartWorld (draws lateStartWorld))]).
Proof.
  assert (H : reachable lateStartWorld)
    by (unfold lateStartWorld; apply reachable_run; apply reachable_init).
  assert (Hend : gameEnd (state lateStartWorld) = false)
    by (vm_compute; reflexivity).
  split; [exact H|]. split; [exact Hend|].
  exact (frame_moves_every_pipe lateStartWorld H Hend).
Defined.
